(** * Token price server: store, mutator tick, query resolvers and the
      filtered subscription iterator of [server/src/index.js].

    The development follows the multi-token revision of the server (the
    [tokensUpdated(symbols)] subscription, source lines 132-304).

    Modelling choices, stated once:
    - a JavaScript number is a binary64 float: Rocq's primitive [float],
      whose [+], [-], [*] and [/] are the IEEE 754 operations that
      JavaScript performs; [Math.round x] is the integer [floor (x + 1/2)],
      taken exactly, as ECMAScript defines it;
    - a string is a [string] of ASCII characters, on which [toUpperCase]
      maps the letters a-z to A-Z and leaves the rest; other characters
      are outside the model;
    - the [tokens] object is a finite map from its keys to its records
      ([gmap string Token]); the in-place field writes of the mutator are
      map updates at the same key;
    - [Math.random] and the comparator-driven shuffle are inputs of a tick
      ([TickRandom]): the draws are floats, the shuffle result is a list
      of keys. *)

From Equations Require Import Equations.
From Stdlib Require Import ZArith PrimFloat SpecFloat FloatOps.
From Stdlib Require Uint63.
From Stdlib Require Import QArith Qround Qabs Lqa Ascii.
From stdpp Require Import gmap strings list fin_maps.

Set Warnings "-inexact-float".

Local Open Scope string_scope.
Local Open Scope list_scope.

(** ** Strings *)

(** [String.prototype.toUpperCase] on ASCII characters: a-z go to A-Z,
    every other character stays. A byte outside ASCII is left as it is and
    stands for no JavaScript character. *)
Definition upper_ascii (c : Ascii.ascii) : Ascii.ascii :=
  let n := nat_of_ascii c in
  if (97 <=? n)%nat && (n <=? 122)%nat then ascii_of_nat (n - 32) else c.

Fixpoint toUpperCase (s : string) : string :=
  match s with
  | EmptyString => EmptyString
  | String c rest => String (upper_ascii c) (toUpperCase rest)
  end.

(** A string of ASCII characters, the strings the model speaks for. *)
Fixpoint ascii_only (s : string) : bool :=
  match s with
  | EmptyString => true
  | String c rest => (nat_of_ascii c <? 128)%nat && ascii_only rest
  end.

(** ** Numbers *)

(** [Math.round]: a zero, an infinity, a NaN or a float with no bit after
    the binary point ([0 <= e]) is returned as it is; any other [x], which
    is [mant * 2^e] with [e < 0], goes to the integer [floor (x + 1/2)],
    computed exactly on the mantissa (so an integer goes to itself), with
    [-0] for a result of zero from a negative [x]. *)
Definition Math_round (x : float) : float :=
  match Prim2SF x with
  | S754_finite s m e =>
      if (0 <=? e)%Z then x
      else
        let mant := if s then Z.neg m else Z.pos m in
        let n := Z.shiftr (Z.shiftl mant 1 + Z.shiftl 1 (- e)) (- e + 1) in
        if (n =? 0)%Z then (if s then -0 else 0)%float
        else if (n <? 0)%Z then (- of_uint63 (Uint63.of_Z (- n)))%float
        else of_uint63 (Uint63.of_Z n)
  | _ => x
  end.

(** ** Data model *)

(** type Token { tokenResourceId, symbol, name, price, change24h } *)
Record Token : Type := mkToken {
  tokenResourceId : string;
  symbol : string;
  name : string;
  price : float;
  change24h : float
}.

Abbreviation Store := (gmap string Token).
Abbreviation Batch := (list Token).

(** const tokens = { ETH: {...}, BTC: {...}, SOL: {...} } *)
Definition tokens : Store :=
  list_to_map
    [ ("ETH", mkToken "token:ethereum:native" "ETH" "Ethereum" 2250.50 2.5);
      ("BTC", mkToken "token:bitcoin:native" "BTC" "Bitcoin" 43500.00 1.8);
      ("SOL", mkToken "token:solana:native" "SOL" "Solana" 98.75 (-0.5)) ].

(** ** Query resolvers *)

Module Query.

(** token: (_, { symbol }) => tokens[symbol.toUpperCase()] || null;
    [None] is [null]. An upper-cased name is never one of the names a
    plain object inherits, so the lookup is a lookup among the keys. *)
Definition token (st : Store) (symbol : string) : option Token :=
  let upperSymbol := toUpperCase symbol in
  st !! upperSymbol.

(** tokens: () => Object.values(tokens); the enumeration order of the
    object is not modelled. *)
Definition tokens (st : Store) : list Token := (map_to_list st).*2.

End Query.

(** ** The broadcast topic *)

(** The result of an iterator's [next()]: a value, [done], or a promise
    that is still pending because nothing has been published yet. *)
Inductive IteratorResult : Type :=
| IterValue (tokensUpdated : Batch)
| IterDone
| IterPending.

(** Modelled from the spec: the Broadcast Topic ([PubSub] of the
    graphql-subscriptions package, whose code is not part of the
    repository). An attachment holds the batches published since it was
    made and not yet pulled, in publish order; [publish] appends the batch
    to every attachment that is still running; a detached attachment is
    done. *)
Record Feed : Type := mkFeed {
  pushQueue : list Batch;
  running : bool
}.

Abbreviation PubSub := (list Feed).

(** Modelled from the spec: [pubsub.asyncIterator([TOKENS_UPDATED])], the
    topic's attach. It registers a new raw feed that starts now, with
    nothing replayed, and hands back its handle. *)
Definition asyncIterator (ps : PubSub) : nat * PubSub :=
  (length ps, ps ++ [mkFeed [] true]).

(** Modelled from the spec: the arrival of one announced batch at one
    attachment. *)
Definition push (payload : Batch) (f : Feed) : Feed :=
  if running f then mkFeed (pushQueue f ++ [payload]) true else f.

(** Modelled from the spec: [pubsub.publish(TOKENS_UPDATED, payload)], the
    fan-out to every attachment. *)
Definition publish (payload : Batch) (ps : PubSub) : PubSub :=
  push payload <$> ps.

(** Modelled from the spec: [baseIterator.next()], the oldest batch not
    yet pulled; with none waiting, the call is pending while the
    attachment runs and done once it is detached. *)
Definition base_next (f : Feed) : IteratorResult * Feed :=
  match pushQueue f with
  | payload :: rest => (IterValue payload, mkFeed rest (running f))
  | [] => (if running f then IterPending else IterDone, f)
  end.

(** Modelled from the spec: [baseIterator.return()], the topic's detach. *)
Definition base_return (f : Feed) : IteratorResult * Feed :=
  (IterDone, mkFeed [] false).

(** ** Subscription resolver *)

(** A JavaScript completion: the call returned, or it threw. *)
Inductive Completion (A : Type) : Type :=
| Normal (value : A)
| Throw (error : string).
Arguments Normal {A} value.
Arguments Throw {A} error.

(** The object returned by [subscribe]: the closure's [upperSymbols] and
    the handle of its [baseIterator]. *)
Record Subscription : Type := mkSubscription {
  upperSymbols : list string;
  baseIterator : nat
}.

(** subscribe: (_, { symbols }) => { upperSymbols = symbols.map(toUpperCase);
      baseIterator = pubsub.asyncIterator([TOKENS_UPDATED]); return {...} } *)
Definition subscribe (symbols : list string) (ps : PubSub)
  : Completion Subscription * PubSub :=
  let upperSymbols := toUpperCase <$> symbols in
  let '(baseIterator, ps') := asyncIterator ps in
  (Normal (mkSubscription upperSymbols baseIterator), ps').

(** The body of the [while (true)] loop after a raw batch has arrived
    (lines 200-208): filter by symbol, and return only a non-empty result;
    [None] is "go round the loop again". *)
Definition filter_step (upperSymbols : list string) (allUpdatedTokens : Batch)
  : option Batch :=
  let filteredTokens :=
    filter (λ token, symbol token ∈ upperSymbols) allUpdatedTokens in
  if bool_decide (0 < length filteredTokens)%nat then Some filteredTokens else None.

(** async next() { while (true) { result = await baseIterator.next();
      if (result.done) return result; ... } } *)
Equations? next (upperSymbols : list string) (f : Feed)
  : IteratorResult * Feed by wf (length (pushQueue f)) lt :=
  next upperSymbols f with Logic.inspect (base_next f) := {
    | @exist (IterValue allUpdatedTokens, f') Hres
        with filter_step upperSymbols allUpdatedTokens := {
        | Some filteredTokens => (IterValue filteredTokens, f')
        | None => next upperSymbols f' }
    | @exist (result, f') _ => (result, f') }.
Proof.
  unfold base_next in Hres. destruct (pushQueue f) as [|b rest]; simpl.
  - destruct (running f); discriminate.
  - injection Hres as _ <-. simpl. lia.
Qed.

(** return() { return baseIterator.return(); } *)
Definition return_ (f : Feed) : IteratorResult * Feed := base_return f.

(** The consumer's [for await] over the subscription, for its first [n]
    turns: the values resolved by [n] successive [next()] calls, up to the
    first one that is done or still pending. *)
Fixpoint pull (n : nat) (upperSymbols : list string) (f : Feed) : list Batch :=
  match n with
  | O => []
  | S n' =>
      match next upperSymbols f with
      | (IterValue batch, f') => batch :: pull n' upperSymbols f'
      | _ => []
      end
  end.

(** ** Mutator *)

(** What one firing of the interval callback draws: the [Math.random()]
    that picks the count, the array left by
    [[...allSymbols].sort(() => Math.random() - 0.5)], and the two
    [Math.random()] draws of the i-th [forEach] callback. *)
Record TickRandom : Type := mkTickRandom {
  rnd_count : float;
  rnd_shuffled : list string;
  rnd_draws : nat → float * float
}.

Definition Object_keys (st : Store) : list string := (map_to_list st).*1.

(** The body of the [forEach] callback on the record it reads. *)
Definition update_token (draws : float * float) (token : Token) : Token :=
  let fluctuation := ((draws.1 - 0.5) * 0.04)%float in
  let price1 := (price token * (1 + fluctuation))%float in
  let price2 := (Math_round (price1 * 100) / 100)%float in
  let change1 := (change24h token + (draws.2 - 0.5) * 0.5)%float in
  let change2 := (Math_round (change1 * 100) / 100)%float in
  mkToken (tokenResourceId token) (symbol token) (name token) price2 change2.

(** symbolsToUpdate.forEach((symbol) => { token = tokens[symbol]; ...;
      updatedTokens.push({ ...token }) }); [None] is the TypeError of
    reading a field of [undefined]. The symbols walked are a slice of
    [Object.keys(tokens)], so each is a key; for a name that is not a key
    the model stops with [None] and follows the code no further (a name
    inherited from [Object.prototype] is found by the code and is not
    modelled). *)
Fixpoint forEach_update (draws : nat → float * float) (i : nat)
    (symbolsToUpdate : list string) (st : Store) (updatedTokens : Batch)
  : option (Store * Batch) :=
  match symbolsToUpdate with
  | [] => Some (st, updatedTokens)
  | symbol :: rest =>
      match st !! symbol with
      | None => None
      | Some token =>
          let token' := update_token (draws i) token in
          forEach_update draws (S i) rest (<[symbol := token']> st)
            (updatedTokens ++ [token'])
      end
  end.

Definition numToUpdate (rnd : TickRandom) : nat :=
  if (rnd_count rnd <? 0.5)%float then 1%nat else 2%nat.

Definition symbolsToUpdate (rnd : TickRandom) : list string :=
  take (numToUpdate rnd) (rnd_shuffled rnd).

(** One firing of the [setInterval] callback of [simulatePriceUpdates]:
    the store after it and the array it publishes. *)
Definition simulatePriceUpdates (rnd : TickRandom) (st : Store)
  : option (Store * Batch) :=
  forEach_update (rnd_draws rnd) 0 (symbolsToUpdate rnd) st [].



(** ** The server: store and topic together *)

Record Server : Type := mkServer {
  store : Store;
  pubsub : PubSub
}.

(** A tick: mutate, then [pubsub.publish(TOKENS_UPDATED, ...)]. *)
Definition tick (rnd : TickRandom) (sv : Server) : option Server :=
  match simulatePriceUpdates rnd (store sv) with
  | Some (st', updatedTokens) =>
      Some (mkServer st' (publish updatedTokens (pubsub sv)))
  | None => None
  end.

(** Successive ticks from a store, with the batches published, oldest
    first. *)
Fixpoint run (rnds : list TickRandom) (st : Store)
  : option (Store * list Batch) :=
  match rnds with
  | [] => Some (st, [])
  | rnd :: rest =>
      match simulatePriceUpdates rnd st with
      | None => None
      | Some (st', updatedTokens) =>
          match run rest st' with
          | None => None
          | Some (st'', published) => Some (st'', updatedTokens :: published)
          end
      end
  end.

(** The server run from its start: ticks against the seed store and an
    initial topic. *)
Fixpoint run_server (rnds : list TickRandom) (sv : Server) : option Server :=
  match rnds with
  | [] => Some sv
  | rnd :: rest =>
      match tick rnd sv with
      | None => None
      | Some sv' => run_server rest sv'
      end
  end.

(** The topic after a sequence of publishes, oldest first. *)
Definition publish_all (published : list Batch) (ps : PubSub) : PubSub :=
  foldl (λ ps payload, publish payload ps) ps published.

(** ** Vocabulary of the properties *)

(** Two records of one entity: identifier, symbol and name agree. *)
Definition same_entity (t t' : Token) : Prop :=
  tokenResourceId t' = tokenResourceId t ∧
  symbol t' = symbol t ∧
  name t' = name t.

(** Two stores with the same keys, holding records of the same entities. *)
Definition same_entities (st st' : Store) : Prop :=
  ∀ s, option_Forall2 same_entity (st !! s) (st' !! s).

(** The data-model invariants of the store: an identifier belongs to one
    key, and every record sits under its own symbol. *)
Definition unique_ids (st : Store) : Prop :=
  ∀ s1 s2 t1 t2, st !! s1 = Some t1 → st !! s2 = Some t2 →
    tokenResourceId t1 = tokenResourceId t2 → s1 = s2.

Definition keyed_by_symbol (st : Store) : Prop :=
  ∀ s t, st !! s = Some t → symbol t = s.

(** A record that leaves the server, at either boundary, at some moment of
    a run from the seed store: the result of a [token] query, an element
    of a [tokens] query, or an element of a batch that a subscription
    attached after [k] ticks resolves within its first [n] turns. *)
Inductive emitted : Token → Prop :=
| emitted_token rnds st published sym t :
    run rnds tokens = Some (st, published) →
    Query.token st sym = Some t →
    emitted t
| emitted_tokens rnds st published t :
    run rnds tokens = Some (st, published) →
    t ∈ Query.tokens st →
    emitted t
| emitted_subscription rnds st published symbols k n batch t :
    run rnds tokens = Some (st, published) →
    batch ∈ pull n (toUpperCase <$> symbols) (mkFeed (drop k published) true) →
    t ∈ batch →
    emitted t.

(** A request none of whose identifiers the store resolves (the empty
    request among them). *)
Definition unresolvable (st : Store) (symbols : list string) : Prop :=
  ∀ s, s ∈ symbols → Query.token st s = None.

(** The intersection of a raw batch with a requested set, by entity
    identifier, as the specification words it. *)
Definition intersection_by_id (requested : list string) (B : Batch) : Batch :=
  filter (λ token, tokenResourceId token ∈ requested) B.

(** The identifiers a request resolves to: those of the records the
    [token] lookup finds for its entries. *)
Definition requested_ids (st : Store) (symbols : list string) : list string :=
  omap (λ s, tokenResourceId <$> Query.token st s) symbols.

(** The filter property with the requested set taken as it is given and
    compared with the identifiers of the batch: a batch is yielded exactly
    when that intersection is not empty, and it is that intersection. *)
Definition yields_intersection_by_id (requested : list string) (B : Batch)
  : Prop :=
  let up := toUpperCase <$> requested in
  (is_Some (filter_step up B) ↔ intersection_by_id requested B ≠ []) ∧
  (∀ Y, filter_step up B = Some Y → Y = intersection_by_id requested B).

(** The three lookups of the BTC scenario resolving to one record: by
    lower-case symbol, by symbol, and by identifier. *)
Definition resolves_by_id_or_symbol (st : Store) : Prop :=
  ∃ t, Query.token st "btc" = Some t ∧
       Query.token st "BTC" = Some t ∧
       Query.token st "token:bitcoin:native" = Some t.

(** A subscribe call that reports an error and leaves the topic as it
    was. *)
Definition rejects_before_attaching (symbols : list string) (ps : PubSub)
  : Prop :=
  ∃ error, subscribe symbols ps = (Throw error, ps).

(** What happens to one attachment, in time order: a batch is announced,
    or the consumer asks for the next value. *)
Inductive Event : Type :=
| EvPublish (payload : Batch)
| EvNext.

Definition announced (evs : list Event) : list Batch :=
  omap (λ ev, match ev with EvPublish payload => Some payload | EvNext => None end) evs.

(** The values resolved along a sequence of events. A [next()] that finds
    nothing to return stays pending and is asked again later. *)
Fixpoint observe (upperSymbols : list string) (f : Feed) (evs : list Event)
  : list Batch :=
  match evs with
  | [] => []
  | EvPublish payload :: rest => observe upperSymbols (push payload f) rest
  | EvNext :: rest =>
      match next upperSymbols f with
      | (IterValue batch, f') => batch :: observe upperSymbols f' rest
      | (_, f') => observe upperSymbols f' rest
      end
  end.

(** The attachment as a sequence of events leaves it. *)
Fixpoint feed_after (upperSymbols : list string) (f : Feed) (evs : list Event)
  : Feed :=
  match evs with
  | [] => f
  | EvPublish payload :: rest => feed_after upperSymbols (push payload f) rest
  | EvNext :: rest => feed_after upperSymbols (next upperSymbols f).2 rest
  end.




(** A concrete tick on the seed store: the count draw picks two, the
    shuffle puts SOL and ETH first. *)
Definition sample_random : TickRandom :=
  mkTickRandom 0.7 ["SOL"; "ETH"; "BTC"] (λ i, (0.75, 0.25)%float).

(** A tick that picks one entity, BTC. *)
Definition btc_random : TickRandom :=
  mkTickRandom 0.2 ["BTC"; "SOL"; "ETH"] (λ i, (0.5, 0.5)%float).

Definition btc_after : Store * Batch :=
  Eval vm_compute in default (∅, []) (simulatePriceUpdates btc_random tokens).





(** The store and the batch that the first sample tick leaves. *)
Definition sample_after : Store * Batch :=
  Eval vm_compute in default (∅, []) (simulatePriceUpdates sample_random tokens).

(** ** The single-token revision of the server

    The earlier revision of [server/src/index.js] (source lines 1-131):
    the identifier field is [id], a subscription names one symbol and
    listens on that symbol's own channel, and a tick updates every entity
    and announces each one on its channel. *)

Module SingleToken.

(** type Token { id, symbol, name, price, change24h } *)
Record Token : Type := mkToken {
  id : string;
  symbol : string;
  name : string;
  price : float;
  change24h : float
}.

(** const tokens = { ETH: {...}, BTC: {...}, SOL: {...} } *)
Definition tokens : gmap string Token :=
  list_to_map
    [ ("ETH", mkToken "token:ethereum:native" "ETH" "Ethereum" 2250.50 2.5);
      ("BTC", mkToken "token:bitcoin:native" "BTC" "Bitcoin" 43500.00 1.8);
      ("SOL", mkToken "token:solana:native" "SOL" "Solana" 98.75 (-0.5)) ].

(** token: (_, { symbol }) => tokens[symbol.toUpperCase()] || null *)
Definition token (st : gmap string Token) (symbol : string) : option Token :=
  let upperSymbol := toUpperCase symbol in
  st !! upperSymbol.

(** Modelled from the spec: the Broadcast Topic, here with named channels
    as [pubsub.asyncIterator([name])] and [pubsub.publish(name, payload)]
    of the graphql-subscriptions package use it. An attachment listens on
    the channels it was made for and holds the payloads announced on them
    since, oldest first. *)
Record Feed : Type := mkFeed {
  triggers : list string;
  pushQueue : list Token;
  running : bool
}.

(** Modelled from the spec: the topic's attach, on the given channels. *)
Definition asyncIterator (names : list string) (ps : list Feed)
  : nat * list Feed :=
  (length ps, ps ++ [mkFeed names [] true]).

(** Modelled from the spec: the arrival of a payload announced on a
    channel at one attachment. *)
Definition push (trigger : string) (payload : Token) (f : Feed) : Feed :=
  if running f && bool_decide (trigger ∈ triggers f)
  then mkFeed (triggers f) (pushQueue f ++ [payload]) true
  else f.

(** Modelled from the spec: the fan-out of one payload. *)
Definition publish (trigger : string) (payload : Token) (ps : list Feed)
  : list Feed :=
  push trigger payload <$> ps.

(** `${PRICE_UPDATED}_${symbol}` *)
Definition channel (symbol : string) : string := "PRICE_UPDATED_" +:+ symbol.

(** subscribe: (_, { symbol }) =>
      pubsub.asyncIterator([`${PRICE_UPDATED}_${symbol.toUpperCase()}`]) *)
Definition subscribe (symbol : string) (ps : list Feed) : nat * list Feed :=
  let upperSymbol := toUpperCase symbol in
  asyncIterator [channel upperSymbol] ps.

(** The field writes of the [forEach] callback on the record it reads. *)
Definition update_token (draws : float * float) (token : Token) : Token :=
  let fluctuation := ((draws.1 - 0.5) * 0.04)%float in
  let price1 := (price token * (1 + fluctuation))%float in
  let price2 := (Math_round (price1 * 100) / 100)%float in
  let change1 := (change24h token + (draws.2 - 0.5) * 0.5)%float in
  let change2 := (Math_round (change1 * 100) / 100)%float in
  mkToken (id token) (symbol token) (name token) price2 change2.

Record Server : Type := mkServer {
  store : gmap string Token;
  pubsub : list Feed
}.

(** Object.keys(tokens).forEach((symbol) => { token = tokens[symbol]; ...;
      pubsub.publish(`${PRICE_UPDATED}_${symbol}`, { tokenUpdated: { ...token } }) });
    [draws i] are the two [Math.random()] draws of the i-th callback and
    [None] is the TypeError of reading a field of [undefined]. *)
Fixpoint forEach_publish (draws : nat → float * float) (i : nat)
    (symbols : list string) (sv : Server) : option Server :=
  match symbols with
  | [] => Some sv
  | symbol :: rest =>
      match store sv !! symbol with
      | None => None
      | Some token =>
          let token' := update_token (draws i) token in
          forEach_publish draws (S i) rest
            (mkServer (<[symbol := token']> (store sv))
                      (publish (channel symbol) token' (pubsub sv)))
      end
  end.

(** One firing of the [setInterval] callback; the keys are enumerated in
    the order of the map, which stands for the object's. *)
Definition simulatePriceUpdates (draws : nat → float * float) (sv : Server)
  : option Server :=
  forEach_publish draws 0 (map_to_list (store sv)).*1 sv.

End SingleToken.

(** * Properties *)

Example toUpperCase_mixed : toUpperCase "bTc-1" = "BTC-1".
Proof. reflexivity. Qed.

Example Math_round_ties_up :
  Math_round 2.5 = 3%float ∧ Math_round (-62.5) = (-62)%float ∧
  Math_round 2.4 = 2%float ∧ Math_round (-0.5) = (-0)%float ∧
  Math_round 0.49999999999999994 = 0%float.
Proof. repeat split; vm_compute; reflexivity. Qed.

Example sample_tick_batch :
  snd <$> simulatePriceUpdates sample_random tokens =
  Some [ mkToken "token:solana:native" "SOL" "Solana" 99.74 (-0.62);
         mkToken "token:ethereum:native" "ETH" "Ethereum" 2273.01 2.38 ].
Proof. vm_compute. reflexivity. Qed.

(** The loop of [next], one turn unrolled. *)
Lemma next_eq upperSymbols f :
  next upperSymbols f =
  match base_next f with
  | (IterValue allUpdatedTokens, f') =>
      match filter_step upperSymbols allUpdatedTokens with
      | Some filteredTokens => (IterValue filteredTokens, f')
      | None => next upperSymbols f'
      end
  | r => r
  end.
Proof.
  funelim (next upperSymbols f);
    repeat match goal with
           | E : base_next _ = _ |- _ => rewrite E
           | E : filter_step _ _ = _ |- _ => rewrite E
           end; reflexivity.
Qed.

Lemma next_nil upperSymbols r :
  next upperSymbols (mkFeed [] r) =
  (if r then IterPending else IterDone, mkFeed [] r).
Proof. rewrite next_eq. unfold base_next. simpl. by destruct r. Qed.

Lemma next_cons upperSymbols allUpdatedTokens rest r :
  next upperSymbols (mkFeed (allUpdatedTokens :: rest) r) =
  match filter_step upperSymbols allUpdatedTokens with
  | Some filteredTokens => (IterValue filteredTokens, mkFeed rest r)
  | None => next upperSymbols (mkFeed rest r)
  end.
Proof. by rewrite next_eq. Qed.

(** ** What a tick keeps *)

Lemma same_entity_update draws t : same_entity t (update_token draws t).
Proof. by unfold same_entity. Qed.

Lemma same_entity_trans t1 t2 t3 :
  same_entity t1 t2 → same_entity t2 t3 → same_entity t1 t3.
Proof. unfold same_entity. intros (?&?&?) (?&?&?). repeat split; congruence. Qed.

Lemma same_entities_refl st : same_entities st st.
Proof.
  intros s. destruct (st !! s); constructor. by unfold same_entity.
Qed.

Lemma same_entities_trans st1 st2 st3 :
  same_entities st1 st2 → same_entities st2 st3 → same_entities st1 st3.
Proof.
  intros H12 H23 s. specialize (H12 s). specialize (H23 s).
  destruct H12 as [t1 t2 Ht|]; inversion H23; subst; constructor.
  eapply same_entity_trans; eauto.
Qed.

Lemma same_entities_insert st s t t' :
  st !! s = Some t → same_entity t t' → same_entities st (<[s := t']> st).
Proof.
  intros Hs Ht k. destruct (decide (s = k)) as [->|Hne].
  - rewrite lookup_insert_eq, Hs. by constructor.
  - rewrite lookup_insert_ne by done. apply same_entities_refl.
Qed.

Lemma same_entities_dom st st' : same_entities st st' → dom st' = dom st.
Proof.
  intros H. apply set_eq. intros s. rewrite !elem_of_dom.
  specialize (H s). inversion H; split; intros [? ?]; eauto; congruence.
Qed.

Lemma forEach_update_frame draws syms : ∀ i st acc st' out,
  forEach_update draws i syms st acc = Some (st', out) →
  same_entities st st'.
Proof.
  induction syms as [|s rest IH]; intros i st acc st' out; simpl.
  - intros [= <- _]. apply same_entities_refl.
  - destruct (st !! s) as [t|] eqn:Hs; [|done]. intros Hrun.
    eapply same_entities_trans; [|eapply IH, Hrun].
    eapply same_entities_insert; eauto using same_entity_update.
Qed.

Lemma forEach_update_untouched draws syms : ∀ i st acc st' out s,
  forEach_update draws i syms st acc = Some (st', out) →
  s ∉ syms → st' !! s = st !! s.
Proof.
  induction syms as [|k rest IH]; intros i st acc st' out s; simpl.
  - by intros [= <- _].
  - destruct (st !! k) as [t|] eqn:Hk; [|done]. intros Hrun Hnot.
    apply not_elem_of_cons in Hnot as [Hne Hrest].
    rewrite (IH _ _ _ _ _ _ Hrun Hrest). by rewrite lookup_insert_ne.
Qed.

(** The callbacks run to the end when every chosen symbol is a key. *)
Lemma forEach_update_runs draws syms : ∀ i st acc,
  (∀ s, s ∈ syms → is_Some (st !! s)) →
  is_Some (forEach_update draws i syms st acc).
Proof.
  induction syms as [|k rest IH]; intros i st acc Hkeys; simpl; [eauto|].
  destruct (Hkeys k) as [t Hk]; [by left|]. rewrite Hk.
  apply IH. intros s Hs. destruct (decide (k = s)) as [->|Hne].
  - rewrite lookup_insert_eq. eauto.
  - rewrite lookup_insert_ne by done. apply Hkeys. by right.
Qed.

(** What the callbacks push, when no symbol is chosen twice: the k-th
    pushed record is the update of the record the store held before the
    tick, and it is the record the store holds after it. *)
Lemma forEach_update_pushed draws syms : ∀ i st acc st' out,
  NoDup syms →
  forEach_update draws i syms st acc = Some (st', out) →
  ∃ new, out = acc ++ new ∧ length new = length syms ∧
    ∀ k s, syms !! k = Some s →
      ∃ old, st !! s = Some old ∧
             new !! k = Some (update_token (draws (i + k)%nat) old) ∧
             st' !! s = Some (update_token (draws (i + k)%nat) old).
Proof.
  induction syms as [|s rest IH]; intros i st acc st' out Hnd; simpl.
  - intros [= <- <-]. exists []. rewrite app_nil_r. repeat split; [].
    intros k s Hk. by rewrite lookup_nil in Hk.
  - destruct (st !! s) as [t|] eqn:Hs; [|done]. intros Hrun.
    apply NoDup_cons in Hnd as [Hnotin Hnd].
    destruct (IH _ _ _ _ _ Hnd Hrun) as (new & -> & Hlen & Hnew).
    exists (update_token (draws i) t :: new).
    rewrite <- app_assoc. repeat split; [simpl; lia|].
    intros [|k] s' Hk; simpl in Hk.
    + injection Hk as <-. exists t. rewrite Nat.add_0_r. repeat split; [done|].
      rewrite (forEach_update_untouched _ _ _ _ _ _ _ _ Hrun Hnotin).
      apply lookup_insert_eq.
    + destruct (Hnew k s' Hk) as (old & Hold & Hk' & Hst').
      assert (s ≠ s') as Hne.
      { intros ->. apply Hnotin. eapply list_elem_of_lookup_2, Hk. }
      rewrite lookup_insert_ne in Hold by done.
      exists old. replace (i + S k)%nat with (S i + k)%nat by lia. done.
Qed.

Lemma elem_of_Object_keys (st : Store) s : s ∈ Object_keys st ↔ is_Some (st !! s).
Proof.
  unfold Object_keys. rewrite list_elem_of_fmap. split.
  - intros ([k t] & -> & Hin). apply elem_of_map_to_list in Hin. eauto.
  - intros [t Ht]. exists (s, t). split; [done|]. by apply elem_of_map_to_list.
Qed.

Lemma NoDup_Object_keys (st : Store) : NoDup (Object_keys st).
Proof. apply NoDup_fst_map_to_list. Qed.

Lemma length_Object_keys (st : Store) : length (Object_keys st) = size st.
Proof. unfold Object_keys. by rewrite length_fmap, length_map_to_list. Qed.

Lemma NoDup_symbolsToUpdate st rnd :
  rnd_shuffled rnd ≡ₚ Object_keys st → NoDup (symbolsToUpdate rnd).
Proof.
  intros Hp. unfold symbolsToUpdate.
  eapply sublist_NoDup, sublist_take. rewrite Hp. apply NoDup_Object_keys.
Qed.

Lemma symbolsToUpdate_keys st rnd s :
  rnd_shuffled rnd ≡ₚ Object_keys st →
  s ∈ symbolsToUpdate rnd → is_Some (st !! s).
Proof.
  intros Hp Hs. apply elem_of_Object_keys. rewrite <- Hp.
  unfold symbolsToUpdate in Hs. eapply subseteq_take, Hs.
Qed.

(** ** C7: the frame of a tick *)

(** C7. A tick that runs to its end leaves the key set of the store as it
    was (no entity added, none removed) and, for every entity, leaves the
    identifier, the symbol and the name as they were; the record of an
    entity that was not chosen is unchanged altogether, so only [price] and
    [change24h] of chosen entities can differ. *)
Theorem tick_keeps_identity rnd st st' batch :
  simulatePriceUpdates rnd st = Some (st', batch) →
  dom st' = dom st ∧
  ∀ s t, st !! s = Some t →
    ∃ t', st' !! s = Some t' ∧
      tokenResourceId t' = tokenResourceId t ∧
      symbol t' = symbol t ∧
      name t' = name t ∧
      (s ∉ symbolsToUpdate rnd → t' = t).
Proof.
  unfold simulatePriceUpdates. intros Hrun.
  pose proof (forEach_update_frame _ _ _ _ _ _ _ Hrun) as Hframe.
  split; [by apply same_entities_dom|].
  intros s t Hs. specialize (Hframe s). rewrite Hs in Hframe.
  inversion Hframe as [? t' (Hid & Hsym & Hname) Heq1 Heq2|]; subst.
  exists t'. repeat split; try done.
  intros Hnot.
  pose proof (forEach_update_untouched _ _ _ _ _ _ _ s Hrun Hnot) as Hsame.
  congruence.
Qed.

Lemma tick_keeps_identity_witness :
  dom sample_after.1 = dom tokens ∧
  ∀ s t, tokens !! s = Some t →
    ∃ t', sample_after.1 !! s = Some t' ∧
      tokenResourceId t' = tokenResourceId t ∧
      symbol t' = symbol t ∧
      name t' = name t ∧
      (s ∉ symbolsToUpdate sample_random → t' = t).
Proof.
  apply (tick_keeps_identity sample_random tokens sample_after.1 sample_after.2).
  vm_compute. reflexivity.
Defined.

(** ** The seed store and the stores reached from it *)

Lemma tokens_lookup s t :
  tokens !! s = Some t →
  (s, t) ∈ [ ("ETH", mkToken "token:ethereum:native" "ETH" "Ethereum" 2250.50 2.5);
             ("BTC", mkToken "token:bitcoin:native" "BTC" "Bitcoin" 43500.00 1.8);
             ("SOL", mkToken "token:solana:native" "SOL" "Solana" 98.75 (-0.5)) ].
Proof.
  unfold tokens. intros H. apply elem_of_list_to_map in H; [done|].
  apply (bool_decide_unpack _). vm_compute. exact I.
Qed.

Ltac seed_cases H :=
  apply tokens_lookup in H;
  repeat (apply elem_of_cons in H; destruct H as [H|H]; [simplify_eq|]);
  [..|by apply elem_of_nil in H].

Lemma tokens_keyed_by_symbol : keyed_by_symbol tokens.
Proof. intros s t H. seed_cases H; reflexivity. Qed.

Lemma tokens_unique_ids : unique_ids tokens.
Proof.
  intros s1 s2 t1 t2 H1 H2. seed_cases H1; seed_cases H2; simpl; congruence.
Qed.

Lemma same_entities_keyed st st' :
  same_entities st st' → keyed_by_symbol st → keyed_by_symbol st'.
Proof.
  intros Hsame Hkey s t' Hs. specialize (Hsame s). rewrite Hs in Hsame.
  inversion Hsame as [t ? (_ & Hsym & _) Heq|]; subst.
  rewrite Hsym. apply Hkey. done.
Qed.

Lemma same_entities_unique_ids st st' :
  same_entities st st' → unique_ids st → unique_ids st'.
Proof.
  intros Hsame Huniq s1 s2 t1' t2' H1 H2 Hid.
  pose proof (Hsame s1) as S1. pose proof (Hsame s2) as S2.
  rewrite H1 in S1. rewrite H2 in S2.
  inversion S1 as [t1 ? (Hid1 & _) E1|]; subst.
  inversion S2 as [t2 ? (Hid2 & _) E2|]; subst.
  eapply (Huniq s1 s2 t1 t2); congruence.
Qed.

(** Every record the callbacks push is the record of an entity the store
    held. *)
Lemma forEach_update_pushed_entity draws syms : ∀ i st acc st' out t,
  forEach_update draws i syms st acc = Some (st', out) →
  t ∈ out →
  t ∈ acc ∨ ∃ s old, s ∈ syms ∧ st !! s = Some old ∧ same_entity old t.
Proof.
  induction syms as [|k rest IH]; intros i st acc st' out t; simpl.
  - intros [= _ <-]. by left.
  - destruct (st !! k) as [tk|] eqn:Hk; [|done]. intros Hrun Hin.
    destruct (IH _ _ _ _ _ _ Hrun Hin) as [Hacc|(s & old & Hs & Hold & Hsame)].
    + apply elem_of_app in Hacc as [Hacc|Hnew]; [by left|].
      apply list_elem_of_singleton in Hnew as ->.
      right. exists k, tk. split; [by left|]. split; [done|].
      apply same_entity_update.
    + right. destruct (decide (k = s)) as [->|Hne].
      * rewrite lookup_insert_eq in Hold. injection Hold as <-.
        exists s, tk. split; [by left|]. split; [done|].
        eapply same_entity_trans; [apply same_entity_update|done].
      * rewrite lookup_insert_ne in Hold by done.
        exists s, old. split; [by right|]. done.
Qed.

Lemma run_frame rnds : ∀ st st' published,
  run rnds st = Some (st', published) → same_entities st st'.
Proof.
  induction rnds as [|rnd rest IH]; intros st st' published; simpl.
  - intros [= <- _]. apply same_entities_refl.
  - destruct (simulatePriceUpdates rnd st) as [[st1 batch]|] eqn:Htick; [|done].
    destruct (run rest st1) as [[st2 pub]|] eqn:Hrest; [|done].
    intros [= <- _]. eapply same_entities_trans; [|eapply IH, Hrest].
    eapply forEach_update_frame, Htick.
Qed.

(** Every store of a run from the seed keeps the data-model invariants and
    the three seed entities. *)
Lemma run_invariants rnds st published :
  run rnds tokens = Some (st, published) →
  unique_ids st ∧ keyed_by_symbol st ∧ dom st = dom tokens ∧ size st = 3%nat.
Proof.
  intros Hrun. pose proof (run_frame _ _ _ _ Hrun) as Hframe.
  split; [eapply same_entities_unique_ids; eauto using tokens_unique_ids|].
  split; [eapply same_entities_keyed; eauto using tokens_keyed_by_symbol|].
  pose proof (same_entities_dom _ _ Hframe) as Hdom. split; [done|].
  rewrite <- size_dom, Hdom, size_dom. reflexivity.
Qed.

Lemma run_published_entity rnds : ∀ st st' published raw t,
  run rnds st = Some (st', published) →
  raw ∈ published → t ∈ raw →
  ∃ s old, st !! s = Some old ∧ same_entity old t.
Proof.
  induction rnds as [|rnd rest IH]; intros st st' published raw t; simpl.
  - intros [= _ <-] Hraw. by apply elem_of_nil in Hraw.
  - destruct (simulatePriceUpdates rnd st) as [[st1 batch]|] eqn:Htick; [|done].
    destruct (run rest st1) as [[st2 pub]|] eqn:Hrest; [|done].
    intros [= _ <-] Hraw Ht. apply elem_of_cons in Hraw as [->|Hraw].
    + destruct (forEach_update_pushed_entity _ _ _ _ _ _ _ _ Htick Ht)
        as [Hnil|(s & old & _ & Hold & Hsame)]; [by apply elem_of_nil in Hnil|].
      eauto.
    + destruct (IH _ _ _ _ _ Hrest Hraw Ht) as (s & mid & Hmid & Hsame).
      pose proof (forEach_update_frame _ _ _ _ _ _ _ Htick s) as Hstep.
      rewrite Hmid in Hstep.
      inversion Hstep as [old ? Hold_mid Heq1 Heq2|]; subst.
      exists s, old. split; [done|]. eapply same_entity_trans; eauto.
Qed.

(** ** The filter, one batch at a time and over a whole feed *)

Lemma filter_step_Some upperSymbols B Y :
  filter_step upperSymbols B = Some Y →
  Y = filter (λ token, symbol token ∈ upperSymbols) B ∧ Y ≠ [].
Proof.
  unfold filter_step. case_bool_decide as Hlen; [|done].
  intros [= <-]. split; [done|]. intros Hnil. rewrite Hnil in Hlen.
  simpl in Hlen. lia.
Qed.

Lemma filter_step_None upperSymbols B :
  filter_step upperSymbols B = None →
  filter (λ token, symbol token ∈ upperSymbols) B = [].
Proof.
  unfold filter_step. case_bool_decide as Hlen; [done|].
  intros _. destruct (filter _ B); [done|]. simpl in Hlen. lia.
Qed.

(** The first [n] values pulled from a feed are the first [n] results of
    mapping the loop body over its queue and dropping the skips. *)
Lemma pull_omap upperSymbols r queue : ∀ n,
  pull n upperSymbols (mkFeed queue r) =
  take n (omap (filter_step upperSymbols) queue).
Proof.
  induction queue as [|B rest IH]; intros [|n]; simpl; try done.
  - rewrite next_nil. by destruct r.
  - rewrite next_cons. destruct (filter_step upperSymbols B) as [Y|] eqn:HB.
    + simpl. by rewrite IH.
    + apply (IH (S n)).
Qed.

Lemma pull_from_raw n upperSymbols queue r batch :
  batch ∈ pull n upperSymbols (mkFeed queue r) →
  ∃ raw, raw ∈ queue ∧ filter_step upperSymbols raw = Some batch.
Proof.
  rewrite pull_omap. intros Hin. apply subseteq_take in Hin.
  apply list_elem_of_omap in Hin as (raw & Hraw & Hstep). eauto.
Qed.

(** ** C2: one identifier per symbol, at both boundaries *)

(** Whatever leaves the server describes a seed entity: it carries the
    identifier the seed store gives to its symbol. *)
Lemma emitted_seed t :
  emitted t →
  ∃ seed, tokens !! symbol t = Some seed ∧
          tokenResourceId t = tokenResourceId seed.
Proof.
  assert (∀ rnds st published s t',
    run rnds tokens = Some (st, published) → st !! s = Some t' →
    ∃ seed, tokens !! symbol t' = Some seed ∧
            tokenResourceId t' = tokenResourceId seed) as Hstore.
  { intros rnds st published s t' Hrun Hs.
    pose proof (run_frame _ _ _ _ Hrun s) as Hframe. rewrite Hs in Hframe.
    inversion Hframe as [seed ? (Hid & Hsym & _) Hseed|]; subst.
    symmetry in Hseed. exists seed.
    rewrite Hsym, (tokens_keyed_by_symbol _ _ Hseed). done. }
  destruct 1 as [rnds st published sym t Hrun Hq
                |rnds st published t Hrun Hin
                |rnds st published symbols k n batch t Hrun Hbatch Hin].
  - eapply Hstore; eauto.
  - unfold Query.tokens in Hin. apply list_elem_of_fmap in Hin as ([s t'] & -> & Hin).
    apply elem_of_map_to_list in Hin. eapply Hstore; eauto.
  - apply pull_from_raw in Hbatch as (raw & Hraw & Hstep).
    apply filter_step_Some in Hstep as [-> _].
    apply list_elem_of_filter in Hin as [_ Hin].
    assert (raw ∈ published) as Hpub.
    { eapply (subseteq_drop k), Hraw. }
    destruct (run_published_entity _ _ _ _ _ _ Hrun Hpub Hin)
      as (s & seed & Hseed & (Hid & Hsym & _)).
    exists seed. rewrite Hsym, (tokens_keyed_by_symbol _ _ Hseed). done.
Qed.

(** C2. Every record that leaves the server, through a query or inside a
    subscription batch, has the identifier field, and two such records with
    the same symbol, emitted at any two moments of a run, carry the same
    identifier. *)
Theorem emitted_identifier_stable e1 e2 :
  emitted e1 → emitted e2 →
  symbol e1 = symbol e2 →
  tokenResourceId e1 = tokenResourceId e2.
Proof.
  intros H1 H2 Hsym.
  destruct (emitted_seed _ H1) as (seed1 & Hs1 & ->).
  destruct (emitted_seed _ H2) as (seed2 & Hs2 & ->).
  rewrite Hsym in Hs1. congruence.
Qed.

Lemma emitted_identifier_stable_witness :
  let e1 := mkToken "token:ethereum:native" "ETH" "Ethereum" 2250.50 2.5 in
  let e2 := mkToken "token:ethereum:native" "ETH" "Ethereum" 2273.01 2.38 in
  emitted e1 ∧ emitted e2 ∧ tokenResourceId e1 = tokenResourceId e2.
Proof.
  intros e1 e2.
  assert (emitted e1) as H1.
  { apply (emitted_token [] tokens [] "eth"); reflexivity. }
  assert (emitted e2) as H2.
  { apply (emitted_subscription [sample_random] sample_after.1 [sample_after.2]
             ["eth"] 0 1 [e2]).
    - vm_compute. reflexivity.
    - vm_compute. left.
    - left. }
  split; [exact H1|]. split; [exact H2|].
  apply (emitted_identifier_stable e1 e2 H1 H2). reflexivity.
Defined.

(** ** C6: the yielded stream is a filter-map of the raw stream *)

Lemma publish_lookup payload (ps : PubSub) h queue :
  ps !! h = Some (mkFeed queue true) →
  publish payload ps !! h = Some (mkFeed (queue ++ [payload]) true).
Proof. intros Hh. unfold publish. by rewrite list_lookup_fmap, Hh. Qed.

Lemma publish_all_lookup published : ∀ (ps : PubSub) h queue,
  ps !! h = Some (mkFeed queue true) →
  publish_all published ps !! h = Some (mkFeed (queue ++ published) true).
Proof.
  induction published as [|b rest IH]; intros ps h queue Hh; simpl.
  - by rewrite app_nil_r.
  - rewrite (IH _ h (queue ++ [b])); [by rewrite <- app_assoc|].
    by apply publish_lookup.
Qed.

Lemma asyncIterator_lookup (ps : PubSub) :
  (asyncIterator ps).2 !! (asyncIterator ps).1 = Some (mkFeed [] true).
Proof. unfold asyncIterator. simpl. apply list_lookup_middle. done. Qed.

(** The non-skipped results of the loop body are the filtered copies of
    the raw batches it does not skip, in the same order. *)
Lemma omap_filter_step upperSymbols (queue : list Batch) :
  omap (filter_step upperSymbols) queue =
  filter (λ token, symbol token ∈ upperSymbols) <$>
    filter (λ raw, is_Some (filter_step upperSymbols raw)) queue.
Proof.
  induction queue as [|B rest IH]; [done|]. simpl.
  destruct (filter_step upperSymbols B) as [Y|] eqn:HB.
  - rewrite filter_cons_True by (rewrite HB; eauto). simpl.
    apply filter_step_Some in HB as [-> _]. f_equal. exact IH.
  - rewrite filter_cons_False by (rewrite HB; by intros [? ?]). done.
Qed.

(** C6. A subscriber that attaches and then has the batches [published]
    announced to it holds exactly those batches, in publish order; the
    first [n] batches it resolves are the first [n] results of mapping the
    filter over that raw sequence and dropping the empty ones. So they are
    the filtered copies of an order-preserving selection [origins] of the
    raw batches: one yielded batch per selected raw batch, none twice,
    none out of order. *)
Theorem yielded_is_filter_map symbols (ps : PubSub) published n :
  ∃ sub f,
    (subscribe symbols ps).1 = Normal sub ∧
    publish_all published (subscribe symbols ps).2 !! baseIterator sub = Some f ∧
    pushQueue f = published ∧
    pull n (upperSymbols sub) f =
      take n (omap (filter_step (upperSymbols sub)) published) ∧
    ∃ origins,
      origins `sublist_of` published ∧
      pull n (upperSymbols sub) f =
        filter (λ token, symbol token ∈ upperSymbols sub) <$> origins.
Proof.
  exists (mkSubscription (toUpperCase <$> symbols) (length ps)),
         (mkFeed published true).
  split; [done|]. split.
  { unfold subscribe. simpl.
    rewrite (publish_all_lookup published _ (length ps) []); [done|].
    apply (asyncIterator_lookup ps). }
  split; [done|]. simpl. rewrite pull_omap. split; [done|].
  exists (take n (filter (λ raw, is_Some (filter_step (toUpperCase <$> symbols) raw))
                    published)).
  split.
  - etransitivity; [apply sublist_take|apply sublist_filter].
  - by rewrite omap_filter_step, fmap_take.
Qed.

(** However publishes and [next()] calls interleave on a running
    attachment, what has been resolved so far is an initial part of the
    filter-map of everything announced to it. *)
Lemma next_split upperSymbols queue : ∀ r res f',
  next upperSymbols (mkFeed queue r) = (res, f') →
  running f' = r ∧
  omap (filter_step upperSymbols) queue =
    match res with IterValue batch => [batch] | _ => [] end ++
    omap (filter_step upperSymbols) (pushQueue f').
Proof.
  induction queue as [|B rest IH]; intros r res f'.
  - rewrite next_nil. intros [= <- <-]. by destruct r.
  - rewrite next_cons. simpl. destruct (filter_step upperSymbols B) as [Y|].
    + by intros [= <- <-].
    + apply IH.
Qed.

Lemma observe_prefix upperSymbols evs : ∀ queue,
  observe upperSymbols (mkFeed queue true) evs `prefix_of`
  omap (filter_step upperSymbols) (queue ++ announced evs).
Proof.
  induction evs as [|[payload|] rest IH]; intros queue; simpl.
  - apply prefix_nil.
  - unfold push. simpl. replace (queue ++ payload :: announced rest)
      with ((queue ++ [payload]) ++ announced rest) by by rewrite <- app_assoc.
    apply IH.
  - destruct (next upperSymbols (mkFeed queue true)) as [res [queue' r']] eqn:Hn.
    apply next_split in Hn as [Hr Hsplit]. simpl in Hr, Hsplit. subst r'.
    rewrite omap_app, Hsplit, <- app_assoc, <- omap_app.
    destruct res; simpl; [apply prefix_cons|..]; apply IH.
Qed.

(** The server run as a whole is the store run together with the
    publishes of its batches. *)
Lemma run_server_run rnds : ∀ sv sv',
  run_server rnds sv = Some sv' ↔
  ∃ published, run rnds (store sv) = Some (store sv', published) ∧
               pubsub sv' = publish_all published (pubsub sv).
Proof.
  induction rnds as [|rnd rest IH]; intros sv sv'; simpl.
  - split.
    + intros [= <-]. by exists [].
    + intros (published & [= Hst <-] & Hps). simpl in Hps.
      destruct sv, sv'; simpl in *; congruence.
  - unfold tick.
    destruct (simulatePriceUpdates rnd (store sv)) as [[st1 batch]|]; simpl.
    + rewrite IH. simpl. split.
      * intros (published & -> & ->). by exists (batch :: published).
      * intros (published & Hrun & Hps).
        destruct (run rest st1) as [[st2 pub]|]; [|done].
        injection Hrun as -> <-. by exists pub.
    + split; [done|]. by intros (? & ? & _).
Qed.

(** ** C1: what the filter does with one raw batch *)

Lemma filter_agree {A} (P Q : A → Prop) `{∀ x, Decision (P x)}
    `{∀ x, Decision (Q x)} (l : list A) :
  (∀ x, x ∈ l → P x ↔ Q x) → filter P l = filter Q l.
Proof.
  induction l as [|x l IH]; intros Hagree; [done|].
  rewrite !filter_cons.
  rewrite IH by (intros y Hy; apply Hagree; by right).
  destruct (decide (P x)) as [HP|HP], (decide (Q x)) as [HQ|HQ]; try done;
    exfalso; apply (Hagree x) in HP || apply (Hagree x) in HQ;
    done || by left.
Qed.

(** The loop body keeps the records whose symbol was requested, whatever
    the batch. *)
Lemma filter_step_by_symbol upperSymbols B :
  let kept := filter (λ token, symbol token ∈ upperSymbols) B in
  (is_Some (filter_step upperSymbols B) ↔ kept ≠ []) ∧
  (∀ Y, filter_step upperSymbols B = Some Y → Y = kept) ∧
  kept `sublist_of` B.
Proof.
  intros kept. split; [|split].
  - split.
    + intros [Y HY]. apply filter_step_Some in HY as [-> HY]. done.
    + intros Hne. destruct (filter_step upperSymbols B) eqn:E; [eauto|].
      by apply filter_step_None in E.
  - intros Y HY. by apply filter_step_Some in HY as [-> _].
  - apply sublist_filter.
Qed.

(** On a record of a published batch, "its symbol was requested" and "its
    identifier is one the request resolves to" say the same. *)
Lemma requested_symbol_iff_id symbols rnds st published B t :
  run rnds tokens = Some (st, published) → B ∈ published → t ∈ B →
  symbol t ∈ toUpperCase <$> symbols ↔
  tokenResourceId t ∈ requested_ids tokens symbols.
Proof.
  intros Hrun HB Ht.
  destruct (run_published_entity _ _ _ _ _ _ Hrun HB Ht)
    as (s0 & seed & Hseed & (Hid & Hsym & _)).
  pose proof (tokens_keyed_by_symbol _ _ Hseed) as Hkey.
  unfold requested_ids. rewrite list_elem_of_omap, list_elem_of_fmap. split.
  - intros (s & Hs & Hin). exists s. split; [done|].
    unfold Query.token. simpl. rewrite <- Hs, Hsym, Hkey, Hseed. simpl. congruence.
  - intros (s & Hin & Hres). exists s. split; [|done].
    unfold Query.token in Hres. simpl in Hres.
    destruct (tokens !! toUpperCase s) as [tk|] eqn:Hk; [|done].
    injection Hres as Hres.
    rewrite Hsym, Hkey.
    symmetry. eapply (tokens_unique_ids _ _ _ _ Hk Hseed). congruence.
Qed.

(** C1. For a filter created with a requested list (its
    entries resolved as symbols, case-insensitively) and a raw batch [B]
    that the server publishes: the filter yields a batch exactly when [B]
    holds a record whose identifier is one the request resolves to, and the
    batch it yields is exactly those records of [B], in the order they have
    in [B]. The filter finds them by comparing symbols. *)
Theorem filter_yields_requested symbols rnds st published B :
  run rnds tokens = Some (st, published) → B ∈ published →
  let up := toUpperCase <$> symbols in
  let wanted := intersection_by_id (requested_ids tokens symbols) B in
  wanted = filter (λ token, symbol token ∈ up) B ∧
  (is_Some (filter_step up B) ↔ wanted ≠ []) ∧
  (∀ Y, filter_step up B = Some Y → Y = wanted) ∧
  wanted `sublist_of` B ∧
  (∀ rest r, next up (mkFeed (B :: rest) r) =
     match wanted with
     | [] => next up (mkFeed rest r)
     | _ => (IterValue wanted, mkFeed rest r)
     end).
Proof.
  intros Hrun HB up wanted.
  assert (wanted = filter (λ token, symbol token ∈ up) B) as Heq.
  { unfold wanted, intersection_by_id. apply filter_agree.
    intros t Ht. symmetry. eapply requested_symbol_iff_id; eauto. }
  split; [done|]. rewrite Heq.
  destruct (filter_step_by_symbol up B) as (Hiff & Hval & Hsub).
  repeat split; try done; try apply Hiff.
  intros rest r. rewrite next_cons.
  destruct (filter_step up B) as [Y|] eqn:E.
  - apply filter_step_Some in E as [-> Hne].
    by destruct (filter (λ token, symbol token ∈ up) B).
  - by rewrite (filter_step_None _ _ E).
Qed.

Lemma filter_yields_requested_witness :
  let up := toUpperCase <$> ["eth"; "sol"] in
  let wanted := intersection_by_id (requested_ids tokens ["eth"; "sol"]) sample_after.2 in
  run [sample_random] tokens = Some (sample_after.1, [sample_after.2]) ∧
  sample_after.2 ∈ [sample_after.2] ∧
  wanted = filter (λ token, symbol token ∈ up) sample_after.2 ∧
  (is_Some (filter_step up sample_after.2) ↔ wanted ≠ []) ∧
  (∀ Y, filter_step up sample_after.2 = Some Y → Y = wanted) ∧
  wanted `sublist_of` sample_after.2 ∧
  (∀ rest r, next up (mkFeed (sample_after.2 :: rest) r) =
     match wanted with
     | [] => next up (mkFeed rest r)
     | _ => (IterValue wanted, mkFeed rest r)
     end).
Proof.
  intros up wanted.
  assert (run [sample_random] tokens = Some (sample_after.1, [sample_after.2])) as Hrun
    by (vm_compute; reflexivity).
  assert (sample_after.2 ∈ [sample_after.2]) as Hin by left.
  split; [exact Hrun|]. split; [exact Hin|].
  exact (filter_yields_requested ["eth"; "sol"] [sample_random]
           sample_after.1 [sample_after.2] sample_after.2 Hrun Hin).
Defined.

(** The request may name an entity by its identifier; the filter then
    yields nothing for a batch that holds that very entity, although the
    intersection by identifier is not empty. *)
Lemma filter_by_raw_id_counterexample :
  run [btc_random] tokens = Some (btc_after.1, [btc_after.2]) ∧
  btc_after.2 = [mkToken "token:bitcoin:native" "BTC" "Bitcoin" 43500.00 1.80] ∧
  ¬ yields_intersection_by_id ["token:bitcoin:native"] btc_after.2.
Proof.
  split; [vm_compute; reflexivity|]. split; [vm_compute; reflexivity|].
  intros [[_ Hyield] _].
  assert (is_Some (filter_step (toUpperCase <$> ["token:bitcoin:native"]) btc_after.2))
    as [Y HY].
  { apply Hyield. vm_compute. discriminate. }
  vm_compute in HY. discriminate.
Qed.

(** ** C10 and C4: a request that resolves to nothing *)

Lemma unresolvable_skips symbols rnds st published raw :
  unresolvable tokens symbols →
  run rnds tokens = Some (st, published) → raw ∈ published →
  filter_step (toUpperCase <$> symbols) raw = None.
Proof.
  intros Hun Hrun Hraw.
  destruct (filter_step _ raw) as [Y|] eqn:E; [|done].
  apply filter_step_Some in E as [-> Hne]. exfalso.
  destruct (filter _ raw) as [|t kept] eqn:F; [done|].
  assert (t ∈ filter (λ token, symbol token ∈ toUpperCase <$> symbols) raw)
    as Hin by (rewrite F; left).
  apply list_elem_of_filter in Hin as [Hsym Ht].
  destruct (run_published_entity _ _ _ _ _ _ Hrun Hraw Ht)
    as (s0 & seed & Hseed & (_ & Hsymseed & _)).
  rewrite Hsymseed, (tokens_keyed_by_symbol _ _ Hseed) in Hsym.
  apply list_elem_of_fmap in Hsym as (s & -> & Hs).
  specialize (Hun s Hs). unfold Query.token in Hun. simpl in Hun. congruence.
Qed.

(** C10. Subscribing with a list that is empty, or none of whose entries
    names an entity of the store, returns normally with a subscription
    attached to the topic; whatever the server then publishes, and from
    whichever tick on the subscriber listens, no [next()] of that
    subscription ever resolves to a batch, in any interleaving of publishes
    and [next()] calls. *)
Theorem unresolvable_subscription_is_silent symbols (ps : PubSub)
    rnds st published k :
  unresolvable tokens symbols →
  run rnds tokens = Some (st, published) →
  ∃ sub f,
    (subscribe symbols ps).1 = Normal sub ∧
    publish_all (drop k published) (subscribe symbols ps).2 !! baseIterator sub
      = Some f ∧
    pushQueue f = drop k published ∧
    (∀ n, pull n (upperSymbols sub) f = []) ∧
    (∀ evs, announced evs = drop k published →
            observe (upperSymbols sub) (mkFeed [] true) evs = []).
Proof.
  intros Hun Hrun.
  exists (mkSubscription (toUpperCase <$> symbols) (length ps)),
         (mkFeed (drop k published) true).
  assert (omap (filter_step (toUpperCase <$> symbols)) (drop k published) = [])
    as Hsilent.
  { destruct (omap _ (drop k published)) as [|Y ys] eqn:E; [done|].
    assert (Y ∈ omap (filter_step (toUpperCase <$> symbols)) (drop k published))
      as Hin by (rewrite E; left).
    apply list_elem_of_omap in Hin as (raw & Hraw & Hstep).
    apply subseteq_drop in Hraw.
    rewrite (unresolvable_skips _ _ _ _ _ Hun Hrun Hraw) in Hstep. done. }
  split; [done|]. split.
  { unfold subscribe. simpl.
    rewrite (publish_all_lookup _ _ (length ps) []); [done|].
    apply (asyncIterator_lookup ps). }
  split; [done|]. simpl. split.
  - intros n. rewrite pull_omap, Hsilent. apply take_nil.
  - intros evs Hevs.
    pose proof (observe_prefix (toUpperCase <$> symbols) evs []) as Hpre.
    simpl in Hpre. rewrite Hevs, Hsilent in Hpre. by apply prefix_nil_inv.
Qed.

Lemma unresolvable_subscription_is_silent_witness :
  unresolvable tokens ["doge"] ∧
  run [sample_random] tokens = Some (sample_after.1, [sample_after.2]) ∧
  ∃ sub f,
    (subscribe ["doge"] []).1 = Normal sub ∧
    publish_all (drop 0 [sample_after.2]) (subscribe ["doge"] []).2
      !! baseIterator sub = Some f ∧
    pushQueue f = drop 0 [sample_after.2] ∧
    (∀ n, pull n (upperSymbols sub) f = []) ∧
    (∀ evs, announced evs = drop 0 [sample_after.2] →
            observe (upperSymbols sub) (mkFeed [] true) evs = []).
Proof.
  assert (unresolvable tokens ["doge"]) as Hun.
  { intros s Hs. apply list_elem_of_singleton in Hs as ->. vm_compute. reflexivity. }
  assert (run [sample_random] tokens = Some (sample_after.1, [sample_after.2])) as Hrun
    by (vm_compute; reflexivity).
  split; [exact Hun|]. split; [exact Hrun|].
  exact (unresolvable_subscription_is_silent ["doge"] [] [sample_random]
           sample_after.1 [sample_after.2] 0 Hun Hrun).
Defined.

(** The empty request and a request for an unknown symbol are not
    rejected: [subscribe] returns a subscription and the topic has gained
    an attachment. *)
Lemma subscribe_rejects_counterexample :
  unresolvable tokens [] ∧
  unresolvable tokens ["doge"] ∧
  ¬ rejects_before_attaching [] [] ∧
  ¬ rejects_before_attaching ["doge"] [] ∧
  subscribe [] [] = (Normal (mkSubscription [] 0), [mkFeed [] true]).
Proof.
  split; [intros s Hs; by apply elem_of_nil in Hs|].
  split.
  { intros s Hs. apply list_elem_of_singleton in Hs as ->. vm_compute. reflexivity. }
  split; [|split]; [intros [error Herr]; discriminate Herr..|reflexivity].
Qed.

(** C4. [subscribe] reports no error for any request, the
    empty one and the unresolvable ones included: it upper-cases the
    entries, attaches a new running feed to the topic and returns the
    subscription bound to it; every attachment made before is left as it
    was. *)
Theorem subscribe_always_attaches symbols (ps : PubSub) :
  subscribe symbols ps =
    (Normal (mkSubscription (toUpperCase <$> symbols) (length ps)),
     ps ++ [mkFeed [] true]) ∧
  ¬ rejects_before_attaching symbols ps ∧
  (subscribe symbols ps).2 !! length ps = Some (mkFeed [] true) ∧
  (∀ h f, ps !! h = Some f → (subscribe symbols ps).2 !! h = Some f).
Proof.
  split; [done|]. split; [by intros [error Herr]|]. split.
  - apply (asyncIterator_lookup ps).
  - intros h f Hh. unfold subscribe, asyncIterator. simpl.
    by apply lookup_app_l_Some.
Qed.

(** ** C3: resolving one entity *)

(** The lookup by identifier finds nothing: the key of the store is the
    symbol. *)
Lemma resolve_by_id_counterexample :
  Query.token tokens "token:bitcoin:native" = None ∧
  ¬ resolves_by_id_or_symbol tokens.
Proof.
  split; [vm_compute; reflexivity|].
  intros (t & _ & _ & Hid). vm_compute in Hid. discriminate.
Qed.

(** C3. At every moment of a run, the [token] query resolves
    "btc" and "BTC" to one and the same record, the entity whose symbol is
    BTC and whose identifier is token:bitcoin:native; asked for that
    identifier, it answers not-found. The lookup is by case-normalised
    symbol only. *)
Theorem token_resolves_by_symbol rnds st published :
  run rnds tokens = Some (st, published) →
  ∃ t, Query.token st "btc" = Some t ∧
       Query.token st "BTC" = Some t ∧
       symbol t = "BTC" ∧
       tokenResourceId t = "token:bitcoin:native" ∧
       Query.token st "token:bitcoin:native" = None.
Proof.
  intros Hrun. pose proof (run_frame _ _ _ _ Hrun) as Hframe.
  pose proof (Hframe "BTC") as Hbtc.
  pose proof (Hframe "TOKEN:BITCOIN:NATIVE") as Hid.
  change (tokens !! "BTC") with
    (Some (mkToken "token:bitcoin:native" "BTC" "Bitcoin" 43500.00 1.8)) in Hbtc.
  change (tokens !! "TOKEN:BITCOIN:NATIVE") with (@None Token) in Hid.
  inversion Hbtc as [seed t (Ht_id & Ht_sym & _) Hseed Ht|]; subst.
  inversion Hid as [|Hn1 Hn2].
  exists t. unfold Query.token.
  change (toUpperCase "btc") with "BTC".
  change (toUpperCase "BTC") with "BTC".
  change (toUpperCase "token:bitcoin:native") with "TOKEN:BITCOIN:NATIVE".
  simpl. repeat split; done.
Qed.

Lemma token_resolves_by_symbol_witness :
  run [sample_random] tokens = Some (sample_after.1, [sample_after.2]) ∧
  ∃ t, Query.token sample_after.1 "btc" = Some t ∧
       Query.token sample_after.1 "BTC" = Some t ∧
       symbol t = "BTC" ∧
       tokenResourceId t = "token:bitcoin:native" ∧
       Query.token sample_after.1 "token:bitcoin:native" = None.
Proof.
  assert (run [sample_random] tokens = Some (sample_after.1, [sample_after.2])) as Hrun
    by (vm_compute; reflexivity).
  split; [exact Hrun|].
  exact (token_resolves_by_symbol [sample_random] sample_after.1 [sample_after.2] Hrun).
Defined.

(** ** C5: the size of a published batch *)

Lemma length_symbolsToUpdate st rnd :
  rnd_shuffled rnd ≡ₚ Object_keys st → (0 < size st)%nat →
  length (symbolsToUpdate rnd) = 1%nat ∨ length (symbolsToUpdate rnd) = 2%nat.
Proof.
  intros Hp Hsize. unfold symbolsToUpdate. rewrite length_take.
  rewrite Hp, length_Object_keys. unfold numToUpdate.
  destruct (rnd_count rnd <? 0.5)%float; lia.
Qed.

(** C5. On a store that holds at least one entity and gives every entity
    its own identifier, a tick whose shuffle is a rearrangement of the keys
    runs to its end and publishes a batch of exactly one or two records,
    with pairwise different identifiers. *)
Theorem published_batch_one_or_two rnd st :
  rnd_shuffled rnd ≡ₚ Object_keys st →
  (0 < size st)%nat →
  unique_ids st →
  ∃ st' batch,
    simulatePriceUpdates rnd st = Some (st', batch) ∧
    (length batch = 1%nat ∨ length batch = 2%nat) ∧
    NoDup (tokenResourceId <$> batch).
Proof.
  intros Hp Hsize Huniq.
  pose proof (NoDup_symbolsToUpdate _ _ Hp) as Hnd.
  destruct (forEach_update_runs (rnd_draws rnd) (symbolsToUpdate rnd) 0 st [])
    as [[st' batch] Hrun].
  { intros s Hs. eapply symbolsToUpdate_keys; eauto. }
  exists st', batch. split; [exact Hrun|].
  destruct (forEach_update_pushed _ _ _ _ _ _ _ Hnd Hrun)
    as (new & -> & Hlen & Hnew).
  simpl. split.
  - rewrite Hlen. by eapply length_symbolsToUpdate.
  - apply NoDup_alt. intros i j x Hi Hj.
    rewrite list_lookup_fmap in Hi, Hj.
    destruct (new !! i) as [ti|] eqn:Eti; [|done].
    destruct (new !! j) as [tj|] eqn:Etj; [|done].
    simpl in Hi, Hj.
    destruct (lookup_lt_is_Some_2 (symbolsToUpdate rnd) i) as [si Hsi].
    { rewrite <- Hlen. eapply lookup_lt_Some, Eti. }
    destruct (lookup_lt_is_Some_2 (symbolsToUpdate rnd) j) as [sj Hsj].
    { rewrite <- Hlen. eapply lookup_lt_Some, Etj. }
    destruct (Hnew i si Hsi) as (oi & Hoi & Hni & _).
    destruct (Hnew j sj Hsj) as (oj & Hoj & Hnj & _).
    assert (si = sj) as <-.
    { eapply (Huniq si sj oi oj Hoi Hoj).
      rewrite Eti in Hni. rewrite Etj in Hnj.
      injection Hni as ->. injection Hnj as ->. simpl in *. congruence. }
    eapply NoDup_lookup; eauto.
Qed.

Lemma published_batch_one_or_two_witness :
  rnd_shuffled sample_random ≡ₚ Object_keys tokens ∧
  (0 < size tokens)%nat ∧
  ∃ st' batch,
    simulatePriceUpdates sample_random tokens = Some (st', batch) ∧
    (length batch = 1%nat ∨ length batch = 2%nat) ∧
    NoDup (tokenResourceId <$> batch).
Proof.
  assert (rnd_shuffled sample_random ≡ₚ Object_keys tokens) as Hp.
  { apply (bool_decide_unpack _). vm_compute. exact I. }
  assert (0 < size tokens)%nat as Hsize by (vm_compute; lia).
  split; [exact Hp|]. split; [exact Hsize|].
  exact (published_batch_one_or_two sample_random tokens Hp Hsize tokens_unique_ids).
Defined.

(** ** C8: a batch holds post-mutation snapshots *)

(** C8. On a store that gives every entity its own identifier, after a
    tick whose shuffle is a rearrangement of the keys, every record of the
    published batch is a whole [Token] record equal to the record the
    store holds at the end of the tick for a chosen symbol; it is the only
    record of the store with that identifier, and it is the update of the
    record the store held before the tick, not that earlier record. *)
Theorem batch_is_post_mutation_snapshot rnd st st' batch :
  rnd_shuffled rnd ≡ₚ Object_keys st →
  unique_ids st →
  simulatePriceUpdates rnd st = Some (st', batch) →
  ∀ t, t ∈ batch →
    ∃ s k old,
      symbolsToUpdate rnd !! k = Some s ∧
      st' !! s = Some t ∧
      (∀ s' u, st' !! s' = Some u →
               tokenResourceId u = tokenResourceId t → u = t) ∧
      st !! s = Some old ∧
      t = update_token (rnd_draws rnd k) old.
Proof.
  intros Hp Huniq Hrun t Ht.
  pose proof (NoDup_symbolsToUpdate _ _ Hp) as Hnd.
  pose proof (same_entities_unique_ids _ _
                (forEach_update_frame _ _ _ _ _ _ _ Hrun) Huniq) as Huniq'.
  destruct (forEach_update_pushed _ _ _ _ _ _ _ Hnd Hrun)
    as (new & -> & Hlen & Hnew).
  simpl in Ht. apply list_elem_of_lookup in Ht as [k Hk].
  destruct (lookup_lt_is_Some_2 (symbolsToUpdate rnd) k) as [s Hs].
  { rewrite <- Hlen. eapply lookup_lt_Some, Hk. }
  destruct (Hnew k s Hs) as (old & Hold & Hnk & Hst').
  simpl in Hnk, Hst'. rewrite Hk in Hnk. injection Hnk as ->.
  exists s, k, old. repeat split; try done.
  intros s' u Hu Hid.
  assert (s' = s) as ->. { eapply (Huniq' s' s); eauto. }
  congruence.
Qed.

Lemma batch_is_post_mutation_snapshot_witness :
  rnd_shuffled sample_random ≡ₚ Object_keys tokens ∧
  simulatePriceUpdates sample_random tokens = Some sample_after ∧
  ∀ t, t ∈ sample_after.2 →
    ∃ s k old,
      symbolsToUpdate sample_random !! k = Some s ∧
      sample_after.1 !! s = Some t ∧
      (∀ s' u, sample_after.1 !! s' = Some u →
               tokenResourceId u = tokenResourceId t → u = t) ∧
      tokens !! s = Some old ∧
      t = update_token (rnd_draws sample_random k) old.
Proof.
  assert (rnd_shuffled sample_random ≡ₚ Object_keys tokens) as Hp.
  { apply (bool_decide_unpack _). vm_compute. exact I. }
  assert (simulatePriceUpdates sample_random tokens = Some sample_after) as Hrun
    by (vm_compute; reflexivity).
  split; [exact Hp|]. split; [exact Hrun|].
  exact (batch_is_post_mutation_snapshot sample_random tokens
           sample_after.1 sample_after.2 Hp tokens_unique_ids Hrun).
Defined.

(** ** C9: the new price and the new change *)






(** * Further properties of the server *)

(** ** The query resolvers *)

Lemma upper_ascii_idempotent c : upper_ascii (upper_ascii c) = upper_ascii c.
Proof. by destruct c as [[] [] [] [] [] [] [] []]. Qed.

Lemma toUpperCase_idempotent s : toUpperCase (toUpperCase s) = toUpperCase s.
Proof.
  induction s as [|c s IH]; simpl; [done|].
  by rewrite upper_ascii_idempotent, IH.
Qed.

(** The keys of a store of a run are the three seed symbols, at every
    moment. *)
Lemma run_lookup_None rnds st published k :
  run rnds tokens = Some (st, published) →
  st !! k = None ↔ k ∉ ["ETH"; "BTC"; "SOL"].
Proof.
  intros Hrun. pose proof (run_frame _ _ _ _ Hrun k) as Hframe.
  assert (st !! k = None ↔ tokens !! k = None) as ->.
  { inversion Hframe; split; congruence. }
  split.
  - intros Hnone Hin.
    repeat (apply elem_of_cons in Hin; destruct Hin as [->|Hin];
            [vm_compute in Hnone; discriminate|]).
    by apply elem_of_nil in Hin.
  - intros Hnot. destruct (tokens !! k) as [t|] eqn:Hk; [|done].
    exfalso. apply Hnot. seed_cases Hk; set_solver.
Qed.

(** X1. On an argument made of ASCII characters, the [token] query does
    not look at the case: asking with the upper-cased symbol gives the same
    answer, whatever the store holds. *)
Theorem token_query_case_insensitive (st : Store) symbol :
  ascii_only symbol = true →
  Query.token st (toUpperCase symbol) = Query.token st symbol.
Proof. intros _. unfold Query.token. simpl. by rewrite toUpperCase_idempotent. Qed.

Lemma token_query_case_insensitive_witness :
  ascii_only "bTc" = true ∧
  Query.token tokens (toUpperCase "bTc") = Query.token tokens "bTc".
Proof.
  split; [reflexivity|].
  apply (token_query_case_insensitive tokens "bTc"). reflexivity.
Defined.

(** X2. At every moment of a run, the [tokens] query lists the three
    entities, and a record is in that list exactly when the [token] query
    for its symbol returns it. *)
Theorem tokens_query_agrees_with_token rnds st published :
  run rnds tokens = Some (st, published) →
  length (Query.tokens st) = 3%nat ∧
  ∀ t, t ∈ Query.tokens st ↔ Query.token st (symbol t) = Some t.
Proof.
  intros Hrun.
  destruct (run_invariants _ _ _ Hrun) as (_ & Hkeyed & _ & Hsize).
  split.
  { unfold Query.tokens. by rewrite length_fmap, length_map_to_list. }
  intros t. unfold Query.tokens, Query.token. simpl.
  rewrite list_elem_of_fmap. split.
  - intros ([s t'] & -> & Hin). apply elem_of_map_to_list in Hin. simpl.
    rewrite (Hkeyed _ _ Hin).
    assert (toUpperCase s = s) as ->; [|done].
    destruct (decide (s ∈ ["ETH"; "BTC"; "SOL"])) as [Hs|Hs].
    + repeat (apply elem_of_cons in Hs; destruct Hs as [->|Hs]; [done|]).
      by apply elem_of_nil in Hs.
    + apply (run_lookup_None _ _ _ s Hrun) in Hs. congruence.
  - intros Hlook. exists (toUpperCase (symbol t), t). split; [done|].
    by apply elem_of_map_to_list.
Qed.

Lemma tokens_query_agrees_with_token_witness :
  run [sample_random] tokens = Some (sample_after.1, [sample_after.2]) ∧
  length (Query.tokens sample_after.1) = 3%nat ∧
  ∀ t, t ∈ Query.tokens sample_after.1 ↔
       Query.token sample_after.1 (symbol t) = Some t.
Proof.
  assert (run [sample_random] tokens = Some (sample_after.1, [sample_after.2])) as Hrun
    by (vm_compute; reflexivity).
  split; [exact Hrun|].
  exact (tokens_query_agrees_with_token [sample_random] sample_after.1
           [sample_after.2] Hrun).
Defined.

(** X3. At every moment of a run, the [token] query answers [null]
    exactly for the arguments whose upper-cased form is none of ETH, BTC
    and SOL. *)
Theorem token_query_not_found rnds st published symbol :
  run rnds tokens = Some (st, published) →
  Query.token st symbol = None ↔ toUpperCase symbol ∉ ["ETH"; "BTC"; "SOL"].
Proof. intros Hrun. unfold Query.token. simpl. by eapply run_lookup_None. Qed.

Lemma token_query_not_found_witness :
  run [sample_random] tokens = Some (sample_after.1, [sample_after.2]) ∧
  (Query.token sample_after.1 "doge" = None ↔
   toUpperCase "doge" ∉ ["ETH"; "BTC"; "SOL"]).
Proof.
  assert (run [sample_random] tokens = Some (sample_after.1, [sample_after.2])) as Hrun
    by (vm_compute; reflexivity).
  split; [exact Hrun|].
  exact (token_query_not_found [sample_random] sample_after.1
           [sample_after.2] "doge" Hrun).
Defined.

(** ** The filtered iterator *)

Lemma filter_step_None_iff upperSymbols B :
  filter_step upperSymbols B = None ↔ ∀ t, t ∈ B → symbol t ∉ upperSymbols.
Proof.
  split.
  - intros Hnone t Ht Hsym. apply filter_step_None in Hnone.
    eapply (filter_nil_not_elem_of _ B t); eauto.
  - intros Hnot. destruct (filter_step upperSymbols B) as [Y|] eqn:E; [|done].
    apply filter_step_Some in E as [-> Hne]. exfalso.
    destruct (filter _ B) as [|t kept] eqn:F; [done|].
    assert (t ∈ filter (λ token, symbol token ∈ upperSymbols) B) as Hin
      by (rewrite F; left).
    apply list_elem_of_filter in Hin as [Hsym Ht]. by apply (Hnot t).
Qed.

Lemma next_consumes upperSymbols queue : ∀ r res f',
  next upperSymbols (mkFeed queue r) = (res, f') →
  running f' = r ∧
  ∃ skipped,
    Forall (λ B, filter_step upperSymbols B = None) skipped ∧
    match res with
    | IterValue batch =>
        ∃ raw, queue = skipped ++ raw :: pushQueue f' ∧
               filter_step upperSymbols raw = Some batch
    | IterDone => queue = skipped ∧ pushQueue f' = [] ∧ r = false
    | IterPending => queue = skipped ∧ pushQueue f' = [] ∧ r = true
    end.
Proof.
  induction queue as [|B rest IH]; intros r res f'.
  - rewrite next_nil. intros [= <- <-]. simpl. split; [done|].
    exists []. split; [constructor|]. by destruct r.
  - rewrite next_cons. destruct (filter_step upperSymbols B) as [Y|] eqn:HB.
    + intros [= <- <-]. simpl. split; [done|].
      exists []. split; [constructor|]. by exists B.
    + intros Hn. destruct (IH _ _ _ Hn) as (Hr & skipped & Hskip & Hres).
      split; [done|]. exists (B :: skipped). split; [by constructor|].
      destruct res as [batch| |].
      * destruct Hres as (raw & -> & Hraw). by exists raw.
      * destruct Hres as (-> & ? & ?). done.
      * destruct Hres as (-> & ? & ?). done.
Qed.

(** X4. When [next()] resolves to a batch, that batch is not empty, every
    record in it has a requested symbol, and it is the filtered copy of one
    raw batch of the queue; the batches in front of that one, which the
    call discards, held no requested record, and everything behind it stays
    queued in order. *)
Theorem next_value_spec upperSymbols f batch f' :
  next upperSymbols f = (IterValue batch, f') →
  batch ≠ [] ∧
  (∀ t, t ∈ batch → symbol t ∈ upperSymbols) ∧
  running f' = running f ∧
  ∃ skipped raw,
    pushQueue f = skipped ++ raw :: pushQueue f' ∧
    batch = filter (λ token, symbol token ∈ upperSymbols) raw ∧
    Forall (λ B, ∀ t, t ∈ B → symbol t ∉ upperSymbols) skipped.
Proof.
  destruct f as [queue r]. intros Hn.
  destruct (next_consumes _ _ _ _ _ Hn) as (Hr & skipped & Hskip & raw & Hq & Hraw).
  apply filter_step_Some in Hraw as [Hbatch Hne].
  split; [done|]. split.
  { intros t Ht. rewrite Hbatch in Ht. by apply list_elem_of_filter in Ht as [? _]. }
  split; [done|]. exists skipped, raw. simpl. repeat split; try done.
  eapply Forall_impl; [exact Hskip|]. intros B HB. by apply filter_step_None_iff.
Qed.

Lemma next_value_spec_witness :
  let f := mkFeed [btc_after.2; sample_after.2; btc_after.2] true in
  let batch := [mkToken "token:solana:native" "SOL" "Solana" 99.74 (-0.62)] in
  let f' := mkFeed [btc_after.2] true in
  next ["SOL"] f = (IterValue batch, f') ∧
  batch ≠ [] ∧
  (∀ t, t ∈ batch → symbol t ∈ ["SOL"]) ∧
  running f' = running f ∧
  ∃ skipped raw,
    pushQueue f = skipped ++ raw :: pushQueue f' ∧
    batch = filter (λ token, symbol token ∈ ["SOL"]) raw ∧
    Forall (λ B, ∀ t, t ∈ B → symbol t ∉ ["SOL"]) skipped.
Proof.
  intros f batch f'.
  assert (next ["SOL"] f = (IterValue batch, f')) as Hn by (vm_compute; reflexivity).
  split; [exact Hn|]. exact (next_value_spec ["SOL"] f batch f' Hn).
Defined.

(** X5. When [next()] does not resolve to a batch, it has gone through the
    whole queue and no queued batch held a requested record; the queue is
    left empty, and the result is done on a detached feed and pending on a
    running one. *)
Theorem next_no_value_spec upperSymbols f res f' :
  next upperSymbols f = (res, f') →
  (∀ batch, res ≠ IterValue batch) →
  pushQueue f' = [] ∧
  running f' = running f ∧
  res = (if running f then IterPending else IterDone) ∧
  Forall (λ B, ∀ t, t ∈ B → symbol t ∉ upperSymbols) (pushQueue f).
Proof.
  destruct f as [queue r]. intros Hn Hres.
  destruct (next_consumes _ _ _ _ _ Hn) as (Hr & skipped & Hskip & Hcase).
  assert (∀ B, filter_step upperSymbols B = None →
               ∀ t, t ∈ B → symbol t ∉ upperSymbols) as Himp
    by (intros B HB; by apply filter_step_None_iff).
  destruct res as [batch| |]; [by destruct (Hres batch)|..];
    destruct Hcase as (-> & Hq & ->); simpl; repeat split; try done;
    eapply Forall_impl; eauto.
Qed.

Lemma next_no_value_spec_witness :
  let f := mkFeed [btc_after.2; btc_after.2] true in
  next ["SOL"] f = (IterPending, mkFeed [] true) ∧
  pushQueue (mkFeed [] true) = [] ∧
  running (mkFeed [] true) = running f ∧
  IterPending = (if running f then IterPending else IterDone) ∧
  Forall (λ B, ∀ t, t ∈ B → symbol t ∉ ["SOL"]) (pushQueue f).
Proof.
  intros f.
  assert (next ["SOL"] f = (IterPending, mkFeed [] true)) as Hn
    by (vm_compute; reflexivity).
  split; [exact Hn|].
  apply (next_no_value_spec ["SOL"] f IterPending (mkFeed [] true) Hn).
  intros batch. discriminate.
Defined.

Lemma filter_step_same_set up1 up2 B :
  (∀ x, x ∈ up1 ↔ x ∈ up2) → filter_step up1 B = filter_step up2 B.
Proof.
  intros Hset. unfold filter_step.
  by rewrite (list_filter_iff (λ token, symbol token ∈ up1)
                (λ token, symbol token ∈ up2) B) by (intros t; apply Hset).
Qed.

(** X6. What a subscription resolves depends only on the set of its
    upper-cased symbols: two requests that name the same symbols, in any
    order, any case and with any repetition, resolve the same batches from
    the same feed. *)
Theorem pull_depends_on_symbol_set symbols1 symbols2 n f :
  (∀ x, x ∈ toUpperCase <$> symbols1 ↔ x ∈ toUpperCase <$> symbols2) →
  pull n (toUpperCase <$> symbols1) f = pull n (toUpperCase <$> symbols2) f.
Proof.
  intros Hset. destruct f as [queue r]. rewrite !pull_omap. f_equal.
  induction queue as [|B rest IH]; [done|]. simpl.
  rewrite (filter_step_same_set _ _ B Hset).
  destruct (filter_step _ B); [f_equal|]; exact IH.
Qed.

Lemma pull_depends_on_symbol_set_witness :
  let f := mkFeed [btc_after.2; sample_after.2] true in
  (∀ x, x ∈ toUpperCase <$> ["eth"; "Sol"; "ETH"] ↔
        x ∈ toUpperCase <$> ["SOL"; "ETH"]) ∧
  pull 2 (toUpperCase <$> ["eth"; "Sol"; "ETH"]) f =
  pull 2 (toUpperCase <$> ["SOL"; "ETH"]) f.
Proof.
  intros f.
  assert (∀ x, x ∈ toUpperCase <$> ["eth"; "Sol"; "ETH"] ↔
               x ∈ toUpperCase <$> ["SOL"; "ETH"]) as Hset.
  { intros x. change (toUpperCase <$> ["eth"; "Sol"; "ETH"]) with ["ETH"; "SOL"; "ETH"].
    change (toUpperCase <$> ["SOL"; "ETH"]) with ["SOL"; "ETH"].
    rewrite !elem_of_cons, !elem_of_nil. tauto. }
  split; [exact Hset|].
  exact (pull_depends_on_symbol_set ["eth"; "Sol"; "ETH"] ["SOL"; "ETH"] 2 f Hset).
Defined.

(** X7. Asking for more symbols never loses anything: if every symbol of
    one request is in another, then on each raw batch for which the first
    yields, the second yields too, and the first batch is a selection of
    the second in the same order. *)
Theorem filter_step_monotone up1 up2 B Y1 :
  up1 ⊆ up2 →
  filter_step up1 B = Some Y1 →
  ∃ Y2, filter_step up2 B = Some Y2 ∧ Y1 `sublist_of` Y2.
Proof.
  intros Hsub H1. apply filter_step_Some in H1 as [-> Hne].
  assert (filter (λ token, symbol token ∈ up1) B =
          filter (λ token, symbol token ∈ up1)
            (filter (λ token, symbol token ∈ up2) B)) as Hfilter.
  { rewrite list_filter_filter. apply list_filter_iff. intros t.
    split; [intros H1; split; [done|by apply Hsub]|by intros [? _]]. }
  destruct (filter_step up2 B) as [Y2|] eqn:H2.
  - apply filter_step_Some in H2 as [-> _]. eexists. split; [done|].
    rewrite Hfilter. apply sublist_filter.
  - apply filter_step_None in H2. rewrite H2 in Hfilter. done.
Qed.

Lemma filter_step_monotone_witness :
  ["SOL"] ⊆ ["ETH"; "SOL"] ∧
  filter_step ["SOL"] sample_after.2 =
    Some [mkToken "token:solana:native" "SOL" "Solana" 99.74 (-0.62)] ∧
  ∃ Y2, filter_step ["ETH"; "SOL"] sample_after.2 = Some Y2 ∧
        [mkToken "token:solana:native" "SOL" "Solana" 99.74 (-0.62)]
          `sublist_of` Y2.
Proof.
  assert (["SOL"] ⊆ ["ETH"; "SOL"]) as Hsub.
  { intros x Hx. apply list_elem_of_singleton in Hx as ->. right. left. }
  assert (filter_step ["SOL"] sample_after.2 =
            Some [mkToken "token:solana:native" "SOL" "Solana" 99.74 (-0.62)]) as H1
    by (vm_compute; reflexivity).
  split; [exact Hsub|]. split; [exact H1|].
  exact (filter_step_monotone ["SOL"] ["ETH"; "SOL"] sample_after.2 _ Hsub H1).
Defined.

(** X8. A delivered batch passes the same filter unchanged: filtering it
    again with the symbols it was filtered with yields it as it is. *)
Theorem filter_step_idempotent upperSymbols B Y :
  filter_step upperSymbols B = Some Y →
  filter_step upperSymbols Y = Some Y.
Proof.
  intros H. apply filter_step_Some in H as [-> Hne].
  unfold filter_step. rewrite list_filter_filter.
  rewrite (list_filter_iff _ (λ token, symbol token ∈ upperSymbols))
    by (intros t; tauto).
  case_bool_decide as Hlen; [done|].
  destruct (filter _ B); [done|]. simpl in Hlen. lia.
Qed.

Lemma filter_step_idempotent_witness :
  filter_step ["SOL"] sample_after.2 =
    Some [mkToken "token:solana:native" "SOL" "Solana" 99.74 (-0.62)] ∧
  filter_step ["SOL"] [mkToken "token:solana:native" "SOL" "Solana" 99.74 (-0.62)] =
    Some [mkToken "token:solana:native" "SOL" "Solana" 99.74 (-0.62)].
Proof.
  assert (filter_step ["SOL"] sample_after.2 =
            Some [mkToken "token:solana:native" "SOL" "Solana" 99.74 (-0.62)]) as H1
    by (vm_compute; reflexivity).
  split; [exact H1|].
  exact (filter_step_idempotent ["SOL"] sample_after.2 _ H1).
Defined.

(** ** The mutator over whole runs *)

Lemma same_entities_keys st st' :
  same_entities st st' → Object_keys st' ≡ₚ Object_keys st.
Proof.
  intros Hsame. apply NoDup_Permutation; try apply NoDup_Object_keys.
  intros s. rewrite !elem_of_Object_keys. specialize (Hsame s).
  inversion Hsame; split; intros [? ?]; eauto; congruence.
Qed.

Lemma tick_runs rnd st :
  rnd_shuffled rnd ≡ₚ Object_keys st → (0 < size st)%nat →
  ∃ st' batch,
    simulatePriceUpdates rnd st = Some (st', batch) ∧
    (length batch = 1%nat ∨ length batch = 2%nat).
Proof.
  intros Hp Hsize.
  destruct (forEach_update_runs (rnd_draws rnd) (symbolsToUpdate rnd) 0 st [])
    as [[st' batch] Hrun].
  { intros s Hs. eapply symbolsToUpdate_keys; eauto. }
  exists st', batch. split; [exact Hrun|].
  destruct (forEach_update_pushed _ _ _ _ _ _ _
              (NoDup_symbolsToUpdate _ _ Hp) Hrun) as (new & -> & Hlen & _).
  simpl. rewrite Hlen. by eapply length_symbolsToUpdate.
Qed.

Lemma run_real_shuffles rnds : ∀ st,
  same_entities tokens st →
  Forall (λ rnd, rnd_shuffled rnd ≡ₚ Object_keys tokens) rnds →
  ∃ st' published,
    run rnds st = Some (st', published) ∧
    length published = length rnds ∧
    Forall (λ B, length B = 1%nat ∨ length B = 2%nat) published.
Proof.
  induction rnds as [|rnd rest IH]; intros st Hsame Hall; simpl.
  - exists st, []. repeat split; constructor.
  - apply Forall_cons in Hall as [Hp Hall].
    pose proof (same_entities_keys _ _ Hsame) as Hkeys.
    destruct (tick_runs rnd st) as (st1 & batch & Htick & Hlen).
    { by rewrite Hkeys. }
    { rewrite <- length_Object_keys, Hkeys, length_Object_keys.
      vm_compute. lia. }
    rewrite Htick.
    destruct (IH st1) as (st2 & published & Hrun & Hcount & Hsizes); [|done|].
    { eapply same_entities_trans; [exact Hsame|].
      eapply forEach_update_frame, Htick. }
    rewrite Hrun. exists st2, (batch :: published).
    split; [done|]. split; [simpl; lia|]. by constructor.
Qed.

(** X9. Whatever the draws, as long as each shuffle leaves a rearrangement
    of the keys, the mutator never throws: every sequence of ticks from the
    seed store runs to its end, publishes exactly one batch per tick, and
    each of those batches holds one or two records. *)
Theorem run_never_throws rnds :
  Forall (λ rnd, rnd_shuffled rnd ≡ₚ Object_keys tokens) rnds →
  ∃ st published,
    run rnds tokens = Some (st, published) ∧
    length published = length rnds ∧
    Forall (λ B, length B = 1%nat ∨ length B = 2%nat) published.
Proof. apply run_real_shuffles, same_entities_refl. Qed.

Lemma run_never_throws_witness :
  Forall (λ rnd, rnd_shuffled rnd ≡ₚ Object_keys tokens) [btc_random; sample_random] ∧
  ∃ st published,
    run [btc_random; sample_random] tokens = Some (st, published) ∧
    length published = length [btc_random; sample_random] ∧
    Forall (λ B, length B = 1%nat ∨ length B = 2%nat) published.
Proof.
  assert (Forall (λ rnd, rnd_shuffled rnd ≡ₚ Object_keys tokens)
            [btc_random; sample_random]) as Hall.
  { repeat (apply Forall_cons_2;
              [apply (bool_decide_unpack _); vm_compute; exact I|]).
    apply Forall_nil_2. }
  split; [exact Hall|]. exact (run_never_throws [btc_random; sample_random] Hall).
Defined.

Lemma filter_all {A} (P : A → Prop) `{∀ x, Decision (P x)} (l : list A) :
  (∀ x, x ∈ l → P x) → filter P l = l.
Proof.
  induction l as [|x l IH]; intros Hall; [done|].
  rewrite filter_cons_True by (apply Hall; by left).
  f_equal. apply IH. intros y Hy. apply Hall. by right.
Qed.

Lemma published_symbol_is_key rnds st published B t :
  run rnds tokens = Some (st, published) → B ∈ published → t ∈ B →
  symbol t ∈ ["ETH"; "BTC"; "SOL"].
Proof.
  intros Hrun HB Ht.
  destruct (run_published_entity _ _ _ _ _ _ Hrun HB Ht)
    as (s0 & seed & Hseed & (_ & Hsym & _)).
  rewrite Hsym, (tokens_keyed_by_symbol _ _ Hseed).
  destruct (decide (s0 ∈ ["ETH"; "BTC"; "SOL"])) as [|Hnot]; [done|].
  apply (run_lookup_None [] tokens [] s0 eq_refl) in Hnot. congruence.
Qed.

(** X10. A subscription whose request names ETH, BTC and SOL (in any
    case, among other entries or not) resolves every published batch, whole
    and unchanged, in publish order. *)
Theorem subscribe_all_receives_all symbols rnds st published n :
  Forall (λ rnd, rnd_shuffled rnd ≡ₚ Object_keys tokens) rnds →
  (∀ k, k ∈ ["ETH"; "BTC"; "SOL"] → k ∈ toUpperCase <$> symbols) →
  run rnds tokens = Some (st, published) →
  pull n (toUpperCase <$> symbols) (mkFeed published true) = take n published.
Proof.
  intros Hall Hcover Hrun. rewrite pull_omap. f_equal.
  destruct (run_real_shuffles rnds tokens (same_entities_refl _) Hall)
    as (st2 & published2 & Hrun2 & _ & Hsizes).
  rewrite Hrun in Hrun2. injection Hrun2 as <- <-.
  assert (∀ B, B ∈ published →
               filter_step (toUpperCase <$> symbols) B = Some B) as Hkeep.
  { intros B HB. unfold filter_step.
    assert (filter (λ token, symbol token ∈ toUpperCase <$> symbols) B = B) as ->.
    { apply filter_all. intros t Ht. apply Hcover.
      eapply published_symbol_is_key; eauto. }
    rewrite bool_decide_eq_true_2; [done|].
    eapply Forall_forall in Hsizes; [|exact HB]. lia. }
  clear Hrun Hsizes Hall. induction published as [|B rest IH]; [done|]. simpl.
  rewrite (Hkeep B) by left. f_equal. apply IH.
  intros B' HB'. apply Hkeep. by right.
Qed.

Lemma subscribe_all_receives_all_witness :
  Forall (λ rnd, rnd_shuffled rnd ≡ₚ Object_keys tokens) [sample_random] ∧
  (∀ k, k ∈ ["ETH"; "BTC"; "SOL"] → k ∈ toUpperCase <$> ["sol"; "btc"; "eth"]) ∧
  run [sample_random] tokens = Some (sample_after.1, [sample_after.2]) ∧
  pull 1 (toUpperCase <$> ["sol"; "btc"; "eth"]) (mkFeed [sample_after.2] true) =
    take 1 [sample_after.2].
Proof.
  assert (Forall (λ rnd, rnd_shuffled rnd ≡ₚ Object_keys tokens) [sample_random])
    as Hall.
  { repeat (apply Forall_cons_2;
              [apply (bool_decide_unpack _); vm_compute; exact I|]).
    apply Forall_nil_2. }
  assert (∀ k, k ∈ ["ETH"; "BTC"; "SOL"] →
               k ∈ toUpperCase <$> ["sol"; "btc"; "eth"]) as Hcover.
  { intros k. change (toUpperCase <$> ["sol"; "btc"; "eth"]) with ["SOL"; "BTC"; "ETH"].
    rewrite !elem_of_cons, !elem_of_nil. tauto. }
  assert (run [sample_random] tokens = Some (sample_after.1, [sample_after.2])) as Hrun
    by (vm_compute; reflexivity).
  split; [exact Hall|]. split; [exact Hcover|]. split; [exact Hrun|].
  exact (subscribe_all_receives_all ["sol"; "btc"; "eth"] [sample_random]
           sample_after.1 [sample_after.2] 1 Hall Hcover Hrun).
Defined.

Lemma forEach_update_symbols draws syms : ∀ i st acc st' out,
  keyed_by_symbol st →
  forEach_update draws i syms st acc = Some (st', out) →
  symbol <$> out = (symbol <$> acc) ++ syms.
Proof.
  induction syms as [|s rest IH]; intros i st acc st' out Hkeyed; simpl.
  - intros [= _ <-]. by rewrite app_nil_r.
  - destruct (st !! s) as [t|] eqn:Hs; [|done]. intros Hrun.
    assert (keyed_by_symbol (<[s := update_token (draws i) t]> st)) as Hkeyed'.
    { eapply same_entities_keyed; [|exact Hkeyed].
      eapply same_entities_insert; eauto using same_entity_update. }
    rewrite (IH _ _ _ _ _ Hkeyed' Hrun).
    rewrite fmap_app, <- app_assoc. simpl. by rewrite (Hkeyed _ _ Hs).
Qed.

(** X11. In a store whose records sit under their own symbols, the batch
    a tick publishes lists the chosen symbols in the order of the shuffle:
    the symbols of its records are the first one or two entries of the
    shuffled array, in that order. *)
Theorem batch_lists_chosen_symbols rnd st st' batch :
  keyed_by_symbol st →
  simulatePriceUpdates rnd st = Some (st', batch) →
  symbol <$> batch = take (numToUpdate rnd) (rnd_shuffled rnd).
Proof.
  intros Hkeyed Hrun.
  apply (forEach_update_symbols _ _ _ _ _ _ _ Hkeyed Hrun).
Qed.

Lemma batch_lists_chosen_symbols_witness :
  simulatePriceUpdates sample_random tokens = Some sample_after ∧
  symbol <$> sample_after.2 =
    take (numToUpdate sample_random) (rnd_shuffled sample_random).
Proof.
  assert (simulatePriceUpdates sample_random tokens = Some sample_after) as Hrun
    by (vm_compute; reflexivity).
  split; [exact Hrun|].
  exact (batch_lists_chosen_symbols sample_random tokens sample_after.1
           sample_after.2 tokens_keyed_by_symbol Hrun).
Defined.

(** ** Edges of the mutator *)

(** X14. On a store with no entity the tick does not fail: it leaves the
    store empty and publishes an empty array. No subscription passes that
    array on, whatever it asked for. *)
Theorem tick_on_empty_store rnd :
  rnd_shuffled rnd ≡ₚ Object_keys (∅ : Store) →
  simulatePriceUpdates rnd ∅ = Some (∅, []) ∧
  ∀ upperSymbols f, next upperSymbols (mkFeed ([] :: pushQueue f) (running f))
                    = next upperSymbols f.
Proof.
  intros Hp. split.
  - unfold simulatePriceUpdates, symbolsToUpdate.
    assert (rnd_shuffled rnd = []) as ->.
    { apply Permutation_nil_r. rewrite Hp. unfold Object_keys.
      by rewrite map_to_list_empty. }
    by rewrite take_nil.
  - intros upperSymbols [queue r]. simpl. by rewrite next_cons.
Qed.

Lemma tick_on_empty_store_witness :
  let rnd := mkTickRandom 0.3 [] (λ i, (0.5, 0.5)%float) in
  rnd_shuffled rnd ≡ₚ Object_keys (∅ : Store) ∧
  simulatePriceUpdates rnd ∅ = Some (∅, []) ∧
  ∀ upperSymbols f, next upperSymbols (mkFeed ([] :: pushQueue f) (running f))
                    = next upperSymbols f.
Proof.
  intros rnd.
  assert (rnd_shuffled rnd ≡ₚ Object_keys (∅ : Store)) as Hp.
  { apply (bool_decide_unpack _). vm_compute. exact I. }
  split; [exact Hp|]. exact (tick_on_empty_store rnd Hp).
Defined.

(** ** The server as a whole *)

(** X18. The server as a whole: a subscription made at some moment, and
    then any number of ticks that run to their end, leave the subscription's
    feed holding exactly the batches those ticks published, in order, and
    the store as the ticks alone would leave it; the subscription resolves
    the filter-map of those batches. *)
Theorem server_feeds_subscriber symbols sv rnds sv' :
  run_server rnds (mkServer (store sv) (subscribe symbols (pubsub sv)).2)
    = Some sv' →
  ∃ published,
    run rnds (store sv) = Some (store sv', published) ∧
    pubsub sv' !! length (pubsub sv) = Some (mkFeed published true) ∧
    ∀ n, pull n (toUpperCase <$> symbols) (mkFeed published true) =
         take n (omap (filter_step (toUpperCase <$> symbols)) published).
Proof.
  intros Hrun. apply run_server_run in Hrun as (published & Hstore & Hps).
  simpl in Hstore, Hps. exists published. split; [done|]. split.
  - rewrite Hps. unfold subscribe. simpl.
    rewrite (publish_all_lookup published _ (length (pubsub sv)) []); [done|].
    apply (asyncIterator_lookup (pubsub sv)).
  - intros n. apply pull_omap.
Qed.

Lemma server_feeds_subscriber_witness :
  let sv := mkServer tokens [] in
  let sv' := mkServer sample_after.1 [mkFeed [sample_after.2] true] in
  run_server [sample_random] (mkServer (store sv) (subscribe ["sol"] (pubsub sv)).2)
    = Some sv' ∧
  ∃ published,
    run [sample_random] (store sv) = Some (store sv', published) ∧
    pubsub sv' !! length (pubsub sv) = Some (mkFeed published true) ∧
    ∀ n, pull n (toUpperCase <$> ["sol"]) (mkFeed published true) =
         take n (omap (filter_step (toUpperCase <$> ["sol"])) published).
Proof.
  intros sv sv'.
  assert (run_server [sample_random]
            (mkServer (store sv) (subscribe ["sol"] (pubsub sv)).2) = Some sv') as Hrun
    by (vm_compute; reflexivity).
  split; [exact Hrun|]. exact (server_feeds_subscriber ["sol"] sv [sample_random] sv' Hrun).
Defined.

(** ** The single-token revision *)

Lemma channel_inj a b : SingleToken.channel a = SingleToken.channel b → a = b.
Proof. cbv [SingleToken.channel String.append]. by intros [= ->]. Qed.

Lemma single_push_own trigger payload up queue :
  SingleToken.push trigger payload
    (SingleToken.mkFeed [SingleToken.channel up] queue true) =
  SingleToken.mkFeed [SingleToken.channel up]
    (queue ++ if decide (trigger = SingleToken.channel up) then [payload] else [])
    true.
Proof.
  unfold SingleToken.push. simpl. destruct (decide _) as [->|Hne].
  - rewrite bool_decide_eq_true_2; [done|]. left.
  - rewrite bool_decide_eq_false_2; [by rewrite app_nil_r|].
    intros Hin. by apply list_elem_of_singleton in Hin.
Qed.

(** The callbacks over a list of distinct keys: every listed entity is
    updated once, with the draws of its position, the others are left
    alone, and an attachment to one channel receives the new record of its
    symbol when that symbol is listed, and nothing else. *)
Lemma forEach_publish_spec draws syms : ∀ i sv,
  NoDup syms →
  (∀ s, s ∈ syms → is_Some (SingleToken.store sv !! s)) →
  ∃ sv',
    SingleToken.forEach_publish draws i syms sv = Some sv' ∧
    (∀ s, s ∉ syms → SingleToken.store sv' !! s = SingleToken.store sv !! s) ∧
    (∀ k s, syms !! k = Some s →
       ∃ old, SingleToken.store sv !! s = Some old ∧
         SingleToken.store sv' !! s =
           Some (SingleToken.update_token (draws (i + k)%nat) old)) ∧
    (∀ h up queue,
       SingleToken.pubsub sv !! h =
         Some (SingleToken.mkFeed [SingleToken.channel up] queue true) →
       SingleToken.pubsub sv' !! h =
         Some (SingleToken.mkFeed [SingleToken.channel up]
                 (queue ++ if decide (up ∈ syms)
                           then option_list (SingleToken.store sv' !! up)
                           else [])
                 true)).
Proof.
  induction syms as [|s rest IH]; intros i sv Hnd Hkeys.
  - exists sv. split; [done|]. split; [done|]. split.
    + intros k s Hk. by rewrite lookup_nil in Hk.
    + intros h up queue Hh. case_decide as Hin; [by apply elem_of_nil in Hin|].
      by rewrite app_nil_r.
  - apply NoDup_cons in Hnd as [Hnotin Hnd].
    destruct (Hkeys s) as [t Hs]; [by left|].
    cbn [SingleToken.forEach_publish]. rewrite Hs.
    set (t' := SingleToken.update_token (draws i) t).
    set (sv1 := SingleToken.mkServer (<[s := t']> (SingleToken.store sv))
                  (SingleToken.publish (SingleToken.channel s) t'
                     (SingleToken.pubsub sv))).
    destruct (IH (S i) sv1 Hnd) as (sv' & Hrun & Hout & Hin & Hps).
    { intros k Hk. unfold sv1. cbn [SingleToken.store].
      destruct (decide (s = k)) as [->|Hne].
      - rewrite lookup_insert_eq. eauto.
      - rewrite lookup_insert_ne by done. apply Hkeys. by right. }
    exists sv'. split; [exact Hrun|]. split; [|split].
    + intros k Hk. apply not_elem_of_cons in Hk as [Hne Hk].
      rewrite (Hout k Hk). unfold sv1. cbn [SingleToken.store].
      by rewrite lookup_insert_ne.
    + intros [|k] s' Hk; cbn in Hk.
      * injection Hk as <-. exists t. split; [done|].
        rewrite (Hout s Hnotin). unfold sv1. cbn [SingleToken.store].
        rewrite lookup_insert_eq. by rewrite Nat.add_0_r.
      * destruct (Hin k s' Hk) as (old & Hold & Hnew).
        unfold sv1 in Hold. cbn [SingleToken.store] in Hold.
        assert (s ≠ s') as Hne.
        { intros ->. apply Hnotin. eapply list_elem_of_lookup_2, Hk. }
        rewrite lookup_insert_ne in Hold by done. exists old. split; [done|].
        by replace (i + S k)%nat with (S i + k)%nat by lia.
    + intros h up queue Hh.
      assert (SingleToken.pubsub sv1 !! h =
              Some (SingleToken.mkFeed [SingleToken.channel up]
                      (queue ++ if decide (s = up) then [t'] else []) true))
        as Hh1.
      { unfold sv1. cbn [SingleToken.pubsub]. unfold SingleToken.publish.
        rewrite list_lookup_fmap, Hh. cbn [fmap option_fmap option_map].
        rewrite single_push_own. do 3 f_equal.
        destruct (decide (s = up)) as [->|Hne]; case_decide as Hc; try done.
        by apply channel_inj in Hc. }
      rewrite (Hps h up _ Hh1). do 2 f_equal. rewrite <- app_assoc. f_equal.
      destruct (decide (s = up)) as [->|Hne].
      * destruct (decide (up ∈ rest)) as [|_]; [done|].
        destruct (decide (up ∈ up :: rest)) as [_|Hc]; [|by destruct Hc; left].
        rewrite (Hout up Hnotin). unfold sv1. cbn [SingleToken.store].
        by rewrite lookup_insert_eq.
      * destruct (decide (up ∈ rest)) as [Hr|Hr];
          destruct (decide (up ∈ s :: rest)) as [Hc|Hc]; try done.
        -- destruct Hc. by right.
        -- apply elem_of_cons in Hc as [->|Hc]; done.
Qed.

(** X19. In the single-token revision a tick never throws, whatever the
    store holds: it keeps the key set and replaces the record of every
    entity, each exactly once, by its update with the draws of the
    entity's position among the keys. *)
Theorem single_tick_updates_every_entity draws sv :
  ∃ sv',
    SingleToken.simulatePriceUpdates draws sv = Some sv' ∧
    dom (SingleToken.store sv') = dom (SingleToken.store sv) ∧
    ∀ s old, SingleToken.store sv !! s = Some old →
      ∃ k, (map_to_list (SingleToken.store sv)).*1 !! k = Some s ∧
           SingleToken.store sv' !! s =
             Some (SingleToken.update_token (draws k) old).
Proof.
  destruct (forEach_publish_spec draws (map_to_list (SingleToken.store sv)).*1 0 sv)
    as (sv' & Hrun & Hout & Hin & _).
  { apply NoDup_fst_map_to_list. }
  { intros s Hs. apply list_elem_of_fmap in Hs as ([k t] & -> & Hs).
    apply elem_of_map_to_list in Hs. eauto. }
  assert (∀ s old, SingleToken.store sv !! s = Some old →
      ∃ k, (map_to_list (SingleToken.store sv)).*1 !! k = Some s ∧
           SingleToken.store sv' !! s =
             Some (SingleToken.update_token (draws k) old)) as Hall.
  { intros s old Hs.
    assert (s ∈ (map_to_list (SingleToken.store sv)).*1) as Hk.
    { apply list_elem_of_fmap. exists (s, old). split; [done|].
      by apply elem_of_map_to_list. }
    apply list_elem_of_lookup in Hk as [k Hk]. exists k. split; [done|].
    destruct (Hin k s Hk) as (old' & Hold' & Hnew). simpl in Hnew. congruence. }
  exists sv'. split; [exact Hrun|]. split; [|exact Hall].
  apply set_eq. intros s. rewrite !elem_of_dom. split.
  - intros [t' Ht']. destruct (SingleToken.store sv !! s) as [t|] eqn:Hs; [eauto|].
    rewrite Hout in Ht'; [congruence|].
    intros Hk. apply list_elem_of_fmap in Hk as ([k t] & -> & Hk).
    apply elem_of_map_to_list in Hk. simpl in Hs. congruence.
  - intros [t Ht]. destruct (Hall s t Ht) as (k & _ & Hnew). eauto.
Qed.

(** X20. In the single-token revision, a subscription for a symbol, in
    any case, followed by one tick holds exactly what the [token] query
    for that symbol answers after the tick: the one new record of that
    entity, or nothing when no entity has that symbol. *)
Theorem single_subscriber_gets_its_token draws sv symbol :
  ∃ sv',
    SingleToken.simulatePriceUpdates draws
      (SingleToken.mkServer (SingleToken.store sv)
         (SingleToken.subscribe symbol (SingleToken.pubsub sv)).2) = Some sv' ∧
    SingleToken.pubsub sv' !! (SingleToken.subscribe symbol (SingleToken.pubsub sv)).1 =
      Some (SingleToken.mkFeed [SingleToken.channel (toUpperCase symbol)]
              (option_list (SingleToken.token (SingleToken.store sv') symbol))
              true).
Proof.
  set (sv0 := SingleToken.mkServer (SingleToken.store sv)
                (SingleToken.subscribe symbol (SingleToken.pubsub sv)).2).
  destruct (forEach_publish_spec draws (map_to_list (SingleToken.store sv0)).*1 0 sv0)
    as (sv' & Hrun & Hout & _ & Hps).
  { apply NoDup_fst_map_to_list. }
  { intros s Hs. apply list_elem_of_fmap in Hs as ([k t] & -> & Hs).
    apply elem_of_map_to_list in Hs. eauto. }
  exists sv'. split; [exact Hrun|].
  change (SingleToken.subscribe symbol (SingleToken.pubsub sv)).1
    with (length (SingleToken.pubsub sv)).
  rewrite (Hps (length (SingleToken.pubsub sv)) (toUpperCase symbol) []).
  - simpl. do 2 f_equal. unfold SingleToken.token. simpl.
    destruct (decide _) as [Hin|Hnot]; [done|].
    rewrite (Hout _ Hnot). simpl.
    destruct (SingleToken.store sv !! toUpperCase symbol) as [t|] eqn:Hs; [|done].
    exfalso. apply Hnot. apply list_elem_of_fmap.
    exists (toUpperCase symbol, t). split; [done|]. by apply elem_of_map_to_list.
  - unfold sv0, SingleToken.subscribe, SingleToken.asyncIterator. simpl.
    by apply list_lookup_middle.
Qed.

(** ** Delivery under any interleaving *)

Lemma observe_app upperSymbols evs1 : ∀ f evs2,
  observe upperSymbols f (evs1 ++ evs2) =
  observe upperSymbols f evs1 ++
  observe upperSymbols (feed_after upperSymbols f evs1) evs2.
Proof.
  induction evs1 as [|[payload|] rest IH]; intros f evs2; simpl; [done|apply IH|].
  destruct (next upperSymbols f) as [[batch| |] f']; simpl; by rewrite IH.
Qed.

Lemma observe_remaining upperSymbols evs : ∀ queue,
  running (feed_after upperSymbols (mkFeed queue true) evs) = true ∧
  omap (filter_step upperSymbols) (queue ++ announced evs) =
    observe upperSymbols (mkFeed queue true) evs ++
    omap (filter_step upperSymbols)
      (pushQueue (feed_after upperSymbols (mkFeed queue true) evs)).
Proof.
  induction evs as [|[payload|] rest IH]; intros queue; simpl.
  - by rewrite app_nil_r.
  - unfold push. simpl.
    replace (queue ++ payload :: announced rest)
      with ((queue ++ [payload]) ++ announced rest) by by rewrite <- app_assoc.
    apply IH.
  - destruct (next upperSymbols (mkFeed queue true)) as [res [queue' r']] eqn:Hn.
    apply next_split in Hn as [Hr Hsplit]. simpl in Hr, Hsplit. subst r'.
    destruct (IH queue') as [Hrun Hrest]. simpl.
    rewrite omap_app, Hsplit, <- app_assoc, <- omap_app, Hrest.
    by destruct res.
Qed.

Lemma observe_nexts upperSymbols r queue : ∀ n,
  observe upperSymbols (mkFeed queue r) (replicate n EvNext) =
  take n (omap (filter_step upperSymbols) queue).
Proof.
  induction queue as [|B rest IH]; intros n.
  - simpl. rewrite take_nil. induction n as [|n IHn]; [done|]. simpl.
    rewrite next_nil. destruct r; exact IHn.
  - destruct n as [|n]; [done|]. simpl. rewrite next_cons.
    destruct (filter_step upperSymbols B) as [Y|] eqn:HB.
    + simpl. by rewrite IH.
    + specialize (IH (S n)). simpl in IH.
      destruct (next upperSymbols (mkFeed rest r)) as [[batch| |] f'] eqn:Hn;
        exact IH.
Qed.

Lemma length_omap_le {A B} (g : A → option B) (l : list A) :
  (length (omap g l) ≤ length l)%nat.
Proof.
  induction l as [|x l IH]; simpl; [lia|].
  change (list_omap A B g l) with (omap g l). destruct (g x); simpl; lia.
Qed.

(** X21. Delivery is lossless and ordered whatever the timing: along any
    sequence of announcements and [next()] calls on a running attachment,
    the batches resolved so far are an initial part of the filter-map of
    everything queued and announced, and asking once more for each batch
    still queued at the end resolves all the rest. *)
Theorem observe_lossless upperSymbols queue evs :
  let f' := feed_after upperSymbols (mkFeed queue true) evs in
  observe upperSymbols (mkFeed queue true) evs `prefix_of`
    omap (filter_step upperSymbols) (queue ++ announced evs) ∧
  observe upperSymbols (mkFeed queue true)
    (evs ++ replicate (length (pushQueue f')) EvNext) =
    omap (filter_step upperSymbols) (queue ++ announced evs).
Proof.
  intros f'. split; [apply observe_prefix|].
  destruct (observe_remaining upperSymbols evs queue) as [Hrun Hrest].
  rewrite observe_app, Hrest. f_equal. fold f' in Hrun |- *.
  destruct f' as [queue' r']. simpl in Hrun. subst r'. simpl.
  rewrite observe_nexts. apply take_ge. apply length_omap_le.
Qed.
